(** * Clean-URL page generator: scripts/generate_clean_pages.py

    A shallow embedding of the clean-page generator of the site
    maintenance scripts, and the properties its specification states.

    Modelling conventions.
    - A Python [str] is a list of characters ([text]); characters are
      8-bit [ascii], and the case folding of [re.I] is the ASCII one.
    - A [pathlib] path is the list of its components ([path]); the
      operations [suffix], [with_suffix], [/], [relative_to] and [str]
      follow the pathlib of CPython 3.11, pure POSIX flavour.
    - The file tree is a finite map from paths to the text of regular
      files; directories are implicit.  Every effect of a run (a printed
      line, a directory made, a file copied or written) is appended to a
      journal carried in the state, in the order it happens.
    - An exception is an outcome of its own: it ends the run and keeps
      the effects that came before it. *)

From Stdlib Require Import ZArith Ascii String DecimalString.
From stdpp Require Import base option list gmap strings.

Local Open Scope list_scope.

#[local] Arguments Ascii.eqb : simpl never.

(** ** Text *)

Abbreviation text := (list ascii).

Definition lit (s : string) : text := list_ascii_of_string s.

Definition dq : ascii := "034"%char.
Definition sq : ascii := "'"%char.
Definition nl : ascii := "010"%char.
Definition backslash : ascii := "\"%char.
Definition slash : ascii := "/"%char.
Definition dot : ascii := "."%char.

(** [s.startswith(p)]. *)
Fixpoint starts_with (p s : text) : bool :=
  match p, s with
  | [], _ => true
  | a :: p', b :: s' => Ascii.eqb a b && starts_with p' s'
  | _ :: _, [] => false
  end.

(** [needle in hay]. *)
Fixpoint contains (needle hay : text) : bool :=
  starts_with needle hay ||
  match hay with
  | [] => false
  | _ :: hay' => contains needle hay'
  end.

(** [s.replace(old, new)] for a non-empty [old]: occurrences are found
    left to right and do not overlap.  [skip] counts the characters of
    the occurrence just replaced that are still to be dropped. *)
Fixpoint replace_from (skip : nat) (old new s : text) : text :=
  match s with
  | [] => []
  | c :: s' =>
      match skip with
      | S n => replace_from n old new s'
      | O =>
          if starts_with old s
          then new ++ replace_from (length old - 1) old new s'
          else c :: replace_from 0 old new s'
      end
  end.

Definition replace (old new s : text) : text :=
  match old with
  | [] => new ++ flat_map (fun c => c :: new) s
  | _ :: _ => replace_from 0 old new s
  end.

(** [s.rstrip(c)] for a one-character argument. *)
Definition rstrip (c : ascii) (s : text) : text :=
  foldr (fun x acc =>
           match acc with
           | [] => if Ascii.eqb x c then [] else [x]
           | _ :: _ => x :: acc
           end) [] s.

(** [s.rfind(c)] as an index, [None] for Python's [-1]. *)
Fixpoint rfind (c : ascii) (s : text) : option nat :=
  match s with
  | [] => None
  | x :: s' =>
      match rfind c s' with
      | Some i => Some (S i)
      | None => if Ascii.eqb x c then Some 0 else None
      end
  end.

(** [sep.join(parts)]. *)
Fixpoint join (sep : text) (parts : list text) : text :=
  match parts with
  | [] => []
  | [p] => p
  | p :: ps => p ++ sep ++ join sep ps
  end.

(** [str(n)] for an integer. *)
Definition str_of_int (n : Z) : text :=
  lit (NilZero.string_of_int (Z.to_int n)).

(** ** The regular expression engine

    Python's [re] is a backtracking matcher.  [bt r s k] matches [r] at
    the start of [s] and passes the consumed text and the remainder to
    the continuation [k]; when [k] fails the matcher backtracks, greedy
    repetitions giving up one character at a time. *)

Definition lower (c : ascii) : ascii :=
  let n := nat_of_ascii c in
  if (65 <=? n)%nat && (n <=? 90)%nat then ascii_of_nat (n + 32) else c.

Definition ci_eqb (a b : ascii) : bool := Ascii.eqb (lower a) (lower b).

Fixpoint starts_with_ci (p s : text) : bool :=
  match p, s with
  | [], _ => true
  | a :: p', b :: s' => ci_eqb a b && starts_with_ci p' s'
  | _ :: _, [] => false
  end.

Inductive regex : Type :=
  | Lit (l : text)                 (* literal text, compared under re.I *)
  | OneOf (p : ascii -> bool)      (* one character of a class *)
  | Star (p : ascii -> bool)       (* class*, greedy *)
  | Plus (p : ascii -> bool)       (* class+, greedy *)
  | Seq (r1 r2 : regex).

Section Backtracking.
Context {A : Type}.

Fixpoint star (p : ascii -> bool) (s : text)
    (k : text -> text -> option A) : option A :=
  match s with
  | c :: s' =>
      if p c then
        match star p s' (fun x r => k (c :: x) r) with
        | Some v => Some v
        | None => k [] s
        end
      else k [] s
  | [] => k [] []
  end.

Fixpoint bt (r : regex) (s : text)
    (k : text -> text -> option A) : option A :=
  match r with
  | Lit l =>
      if starts_with_ci l s
      then k (take (length l) s) (drop (length l) s)
      else None
  | OneOf p =>
      match s with
      | c :: s' => if p c then k [c] s' else None
      | [] => None
      end
  | Star p => star p s k
  | Plus p =>
      match s with
      | c :: s' => if p c then star p s' (fun x r => k (c :: x) r) else None
      | [] => None
      end
  | Seq r1 r2 =>
      bt r1 s (fun x1 s1 => bt r2 s1 (fun x2 s2 => k (x1 ++ x2) s2))
  end.
End Backtracking.

(** The texts a regex matches, as a specification of the matcher. *)
Fixpoint lang (r : regex) (x : text) : Prop :=
  match r with
  | Lit l => starts_with_ci l x = true ∧ length x = length l
  | OneOf p => ∃ c, x = [c] ∧ p c = true
  | Star p => forallb p x = true
  | Plus p => x ≠ [] ∧ forallb p x = true
  | Seq r1 r2 => ∃ x1 x2, x = x1 ++ x2 ∧ lang r1 x1 ∧ lang r2 x2
  end.

(** ** generate_clean_pages.py: the tag injectors *)

Definition is_quote (c : ascii) : bool := Ascii.eqb c dq || Ascii.eqb c sq.
Definition not_gt (c : ascii) : bool := negb (Ascii.eqb c ">"%char).
Definition not_quote (c : ascii) : bool := negb (is_quote c).

(** [CANONICAL_RE], compiled with [re.I], one regex per capture group.
    Writing Q for the class of the two quote characters and N for its
    complement, the pattern is
    [(<link[^>]*rel=QcanonicalQ[^>]*href=Q)(N+)(Q[^>]*>)]. *)
Definition CANONICAL_G1 : regex :=
  Seq (Lit (lit "<link"))
 (Seq (Star not_gt)
 (Seq (Lit (lit "rel="))
 (Seq (OneOf is_quote)
 (Seq (Lit (lit "canonical"))
 (Seq (OneOf is_quote)
 (Seq (Star not_gt)
 (Seq (Lit (lit "href="))
      (OneOf is_quote)))))))).
Definition CANONICAL_G2 : regex := Plus not_quote.
Definition CANONICAL_G3 : regex :=
  Seq (OneOf is_quote) (Seq (Star not_gt) (Lit (lit ">"))).
Definition CANONICAL_RE : regex :=
  Seq CANONICAL_G1 (Seq CANONICAL_G2 CANONICAL_G3).

(** A match of [CANONICAL_RE]: its three groups and the text after it. *)
Record canon_match : Type := CanonMatch {
  group1 : text;
  group2 : text;
  group3 : text;
  after : text
}.

(** The whole text of a match, [m.group(0)]. *)
Definition matched (m : canon_match) : text :=
  group1 m ++ group2 m ++ group3 m.

(** [CANONICAL_RE.match] at the start of [s]. *)
Definition canonical_match_at (s : text) : option canon_match :=
  bt CANONICAL_G1 s (fun g1 s1 =>
  bt CANONICAL_G2 s1 (fun g2 s2 =>
  bt CANONICAL_G3 s2 (fun g3 s3 =>
  Some (CanonMatch g1 g2 g3 s3)))).

(** [CANONICAL_RE.search(s)]: the leftmost match, with the text before it. *)
Fixpoint canonical_search (s : text) : option (text * canon_match) :=
  match canonical_match_at s with
  | Some m => Some ([], m)
  | None =>
      match s with
      | [] => None
      | c :: s' =>
          match canonical_search s' with
          | Some (pre, m) => Some (c :: pre, m)
          | None => None
          end
      end
  end.

(** [CANONICAL_RE.sub(lambda m: m.group(1) + url + m.group(3), s)]:
    every non-overlapping match, left to right.  [skip] counts the
    characters of the last match still to be passed over. *)
Fixpoint canonical_sub_from (skip : nat) (url s : text) : text :=
  match s with
  | [] => []
  | c :: s' =>
      match skip with
      | S n => canonical_sub_from n url s'
      | O =>
          match canonical_match_at s with
          | Some m =>
              group1 m ++ url ++ group3 m ++
              canonical_sub_from (length (matched m) - 1) url s'
          | None => c :: canonical_sub_from 0 url s'
          end
      end
  end.

Definition canonical_sub (url s : text) : text := canonical_sub_from 0 url s.

Definition text_eqb (a b : text) : bool := bool_decide (a = b).

Definition head_close : text := lit "</head>".

Definition canonical_tag (canonical_url : text) : text :=
  lit "  <link rel=" ++ [dq] ++ lit "canonical" ++ [dq] ++ lit " href=" ++
  [dq] ++ canonical_url ++ [dq] ++ lit ">" ++ [nl].

Definition add_canonical_to_html (content canonical_url : text)
    : text * bool :=
  match canonical_search content with
  | Some _ =>
      let new_content := canonical_sub canonical_url content in
      (new_content, negb (text_eqb new_content content))
  | None =>
      let insert := canonical_tag canonical_url in
      if contains head_close content
      then (replace head_close (insert ++ head_close) content, true)
      else (insert ++ content, true)
  end.

Definition refresh_tag (target_url : text) (seconds : Z) : text :=
  lit "<meta http-equiv=" ++ [dq] ++ lit "refresh" ++ [dq] ++
  lit " content=" ++ [dq] ++ str_of_int seconds ++ lit "; url=" ++
  target_url ++ [dq] ++ lit ">" ++ [nl].

Definition add_meta_refresh (content target_url : text) (seconds : Z)
    : text * bool :=
  let meta := refresh_tag target_url seconds in
  if contains meta content then (content, false)
  else if contains head_close content
  then (replace head_close (lit "  " ++ meta ++ head_close) content, true)
  else (meta ++ content, true).

(** ** Paths (pathlib, POSIX flavour)

    A path is the list of its components.  Components are file names:
    they hold no separator.  Absolute paths are given by their components
    below the file-system root. *)

Abbreviation path := (list text).

(** [p.name]: the final component, empty when there is none. *)
Definition name (p : path) : text := List.last p [].

(** [p.suffix], as CPython computes it: from the last dot of the name,
    unless that dot is the first or the last character. *)
Definition suffix (p : path) : text :=
  let n := name p in
  match rfind dot n with
  | Some i => if (0 <? i)%nat && (i <? length n - 1)%nat then drop i n else []
  | None => []
  end.

Inductive exn : Type :=
  | ValueError
  | FileNotFoundError.

(** [p.with_suffix(suf)]. *)
Definition with_suffix (p : path) (suf : text) : exn + path :=
  if bool_decide (slash ∈ suf) then inl ValueError
  else if (negb (bool_decide (suf = [])) && negb (starts_with [dot] suf))
          || bool_decide (suf = [dot]) then inl ValueError
  else
    let n := name p in
    if bool_decide (n = []) then inl ValueError
    else
      let old_suffix := suffix p in
      let n' := if bool_decide (old_suffix = []) then n ++ suf
                else take (length n - length old_suffix) n ++ suf in
      inr (removelast p ++ [n']).

(** [a / b]: the components of [b] are parsed again, which drops empty
    ones and single dots. *)
Definition joinpath (a b : path) : path :=
  a ++ filter (fun x => x ≠ [] ∧ x ≠ [dot]) b.

(** [p.relative_to(base)]. *)
Fixpoint relative_to (p base : path) : exn + path :=
  match base, p with
  | [], _ => inr p
  | b :: base', x :: p' =>
      if bool_decide (x = b) then relative_to p' base' else inl ValueError
  | _ :: _, [] => inl ValueError
  end.

(** [str(p)] for a relative and for an absolute path. *)
Definition str_rel (p : path) : text :=
  match p with
  | [] => [dot]
  | _ :: _ => join [slash] p
  end.

Definition str_abs (p : path) : text := slash :: join [slash] p.

(** ** The file tree and the effects of a run *)

Inductive event : Type :=
  | Printed (line : text)
  | MadeDir (dir : path)
  | Copied (src dst : path)
  | Wrote (file : path) (content : text).

Record world : Type := World {
  files : gmap path text;
  journal : list event
}.

Inductive outcome (A : Type) : Type :=
  | Returned (a : A) (w : world)
  | Raised (e : exn) (w : world).
Arguments Returned {A} a w.
Arguments Raised {A} e w.

Definition M (A : Type) : Type := world -> outcome A.

Definition ret {A} (a : A) : M A := fun w => Returned a w.

Definition bind {A B} (m : M A) (k : A -> M B) : M B :=
  fun w =>
    match m w with
    | Returned a w' => k a w'
    | Raised e w' => Raised e w'
    end.

Definition raise {A} (e : exn) : M A := fun w => Raised e w.

Definition lift {A} (r : exn + A) : M A :=
  match r with
  | inl e => raise e
  | inr a => ret a
  end.

Notation "x <- m ;; k" := (bind m (fun x => k))
  (at level 62, m at next level, right associativity).
Notation "m ;;; k" := (bind m (fun _ => k))
  (at level 62, right associativity).

Definition log (e : event) : M unit :=
  fun w => Returned tt (World (files w) (journal w ++ [e])).

Definition print (line : text) : M unit := log (Printed line).

(** [p.exists()]. *)
Definition exists_ (p : path) : M bool :=
  fun w => Returned (bool_decide (is_Some (files w !! p))) w.

(** [p.read_text()]. *)
Definition read_text (p : path) : M text :=
  fun w =>
    match files w !! p with
    | Some c => Returned c w
    | None => Raised FileNotFoundError w
    end.

(** [p.write_text(c)]. *)
Definition write_text (p : path) (c : text) : M unit :=
  fun w => Returned tt (World (<[p := c]> (files w)) (journal w ++ [Wrote p c])).

(** [shutil.copy2(src, dst)]. *)
Definition copy2 (src dst : path) : M unit :=
  fun w =>
    match files w !! src with
    | Some c =>
        Returned tt (World (<[dst := c]> (files w)) (journal w ++ [Copied src dst]))
    | None => Raised FileNotFoundError w
    end.

(** [ensure_dir]: [path.mkdir(parents=True, exist_ok=True)].  Directories
    are implicit in the file tree; the call is recorded in the journal.
    The error of [mkdir] when a regular file stands where the directory
    or one of its parents should be is not modelled. *)
Definition ensure_dir (p : path) : M unit := log (MadeDir p).

Definition write_backup (p : path) : M path :=
  bak <- lift (with_suffix p (suffix p ++ lit ".bak")) ;;
  copy2 p bak ;;;
  ret bak.

(** ** generate_clean_pages.py: the generator *)

Definition HTML_EXT : text := lit ".html".
Definition EXCLUDE_DIRS : list text := [lit "assets"; lit ".git"].

Record config : Type := Config {
  dry_run : bool;
  apply : bool;
  canonical_old : bool;
  redirect_old : bool;
  redirect_type : text;
  domain : text;
  force : bool
}.

(** What the command line passes to [run]; the parser defaults. *)
Definition cli (apply_ canonical_old_ redirect_old_ force_ : bool)
    (domain_ : text) : config :=
  Config (negb apply_) apply_ canonical_old_ redirect_old_ (lit "meta")
         domain_ force_.

Definition ends_with (suf s : text) : bool :=
  starts_with (rev suf) (rev s).

(** The clean target of a page: directory, index file and canonical URL. *)
Record target : Type := Target {
  target_dir : path;
  target_index : path;
  clean_url : text
}.

(** The lines the generator prints. *)
Definition dry_line (f : path) (t : target) : text :=
  lit "[DRY] Will create: " ++ str_abs (target_index t) ++
  lit "  (from " ++ str_abs f ++ lit ")  canonical: " ++ clean_url t.

Definition skip_line (t : target) : text :=
  lit "Skipping existing target " ++ str_abs (target_index t) ++
  lit "; use --force to overwrite".

Definition created_line (t : target) : text :=
  lit "Created " ++ str_abs (target_index t).

Definition updated_line (f : path) : text :=
  lit "Updated legacy file " ++ str_abs f ++ lit " (canonical/redirect added)".

Definition done_line (created modified : list path) : text :=
  lit "Done. Created " ++ str_of_int (Z.of_nat (length created)) ++
  lit " pages, modified " ++ str_of_int (Z.of_nat (length modified)) ++
  lit " legacy files.".

Section Generator.
Variable ROOT : path.

Definition PAGES_DIR : path := joinpath ROOT [lit "pages"].

(** [find_page_files]: the files below [root/pages] whose name matches
    [*.html], without those having an excluded component.  With no file
    below [root/pages] the result is empty, as it is when that directory
    does not exist.  The order is that of the map; [rglob] promises
    none.  The map holds regular files only: a directory whose name ends
    in [.html], which [rglob] would list as well, is not modelled. *)
Definition find_page_files (root : path) (w : world) : list path :=
  let files_ :=
    filter (fun f => joinpath root [lit "pages"] `prefix_of` f
                     ∧ f ≠ joinpath root [lit "pages"]
                     ∧ ends_with HTML_EXT (name f) = true)
           (map fst (map_to_list (files w))) in
  filter (fun f => ¬ Exists (fun p => p ∈ EXCLUDE_DIRS) f) files_.

(** Lines 101 to 109 of [run]: the path mapper. *)
Definition clean_target (domain_ : text) (f : path) : exn + target :=
  match relative_to f PAGES_DIR with
  | inl e => inl e
  | inr rel =>
      match with_suffix rel [] with
      | inl e => inl e
      | inr stripped =>
          if bool_decide (str_rel stripped = lit "index")
          then inr (Target ROOT (joinpath ROOT [lit "index.html"])
                           (rstrip slash domain_ ++ lit "/"))
          else
            let dir := joinpath ROOT stripped in
            inr (Target dir (joinpath dir [lit "index.html"])
                   (rstrip slash domain_ ++ lit "/" ++
                    replace [backslash] [slash] (str_rel stripped)))
      end
  end.

(** The redirect target of line 141. *)
Definition redirect_target (f : path) : exn + text :=
  match relative_to f PAGES_DIR with
  | inl e => inl e
  | inr rel =>
      match with_suffix rel [] with
      | inl e => inl e
      | inr stripped =>
          inr (lit "/" ++ replace [backslash] [slash] (str_rel stripped))
      end
  end.

(** Lines 115 to 130: create the clean copy, or skip it. *)
Definition create_or_skip (cfg : config) (f : path) (t : target)
    (created : list path) : M (list path) :=
  present <- exists_ (target_index t) ;;
  if present && negb (force cfg) then
    print (skip_line t) ;;;
    ret created
  else
    ensure_dir (target_dir t) ;;;
    content <- read_text f ;;
    let '(new_content, changed_canon) :=
      add_canonical_to_html content (clean_url t) in
    present' <- exists_ (target_index t) ;;
    (if present' && force cfg
     then write_backup (target_index t) ;;; ret tt
     else ret tt) ;;;
    write_text (target_index t) new_content ;;;
    print (created_line t) ;;;
    ret (created ++ [target_index t]).

(** Lines 133 to 147: the optional update of the legacy page. *)
Definition legacy_update (cfg : config) (f : path) (t : target)
    (modified : list path) : M (list path) :=
  if canonical_old cfg || redirect_old cfg then
    orig_content <- read_text f ;;
    let '(new_orig, changed_any) :=
      if canonical_old cfg
      then add_canonical_to_html orig_content (clean_url t)
      else (orig_content, false) in
    step <-
      (if redirect_old cfg && text_eqb (redirect_type cfg) (lit "meta")
       then
         url <- lift (redirect_target f) ;;
         let '(new_orig', changed) := add_meta_refresh new_orig url 0 in
         ret (new_orig', changed_any || changed)
       else ret (new_orig, changed_any)) ;;
    let '(new_orig, changed_any) := step in
    if changed_any : bool then
      write_backup f ;;;
      write_text f new_orig ;;;
      print (updated_line f) ;;;
      ret (modified ++ [f])
    else ret modified
  else ret modified.

(** The body of the loop of [run], lines 100 to 147. *)
Definition process_file (cfg : config) (f : path)
    (acc : list path * list path) : M (list path * list path) :=
  t <- lift (clean_target (domain cfg) f) ;;
  if dry_run cfg then
    print (dry_line f t) ;;;
    ret acc
  else
    created <- create_or_skip cfg f t (fst acc) ;;
    modified <- legacy_update cfg f t (snd acc) ;;
    ret (created, modified).

Fixpoint run_loop (cfg : config) (fs : list path)
    (acc : list path * list path) : M (list path * list path) :=
  match fs with
  | [] => ret acc
  | f :: fs' =>
      acc' <- process_file cfg f acc ;;
      run_loop cfg fs' acc'
  end.

Definition run (cfg : config) : M unit :=
  fun w =>
    (acc <- run_loop cfg (find_page_files ROOT w) ([], []) ;;
     print (done_line (fst acc) (snd acc))) w.
End Generator.

(** The world a computation leaves behind, whether it returned or raised. *)
Definition world_of {A} (o : outcome A) : world :=
  match o with
  | Returned _ w => w
  | Raised _ w => w
  end.




(** ** Site-root containment

    A path lies within the site root when it is the root followed by
    components that never climb above it: [..] goes one level up, any
    other component one level down. *)

Fixpoint descend (depth : nat) (q : path) : option nat :=
  match q with
  | [] => Some depth
  | x :: q' =>
      if bool_decide (x = lit "..") then
        match depth with
        | O => None
        | S d => descend d q'
        end
      else if bool_decide (x = [] ∨ x = [dot]) then descend depth q'
      else descend (S depth) q'
  end.

Definition within_root (ROOT p : path) : Prop :=
  ∃ q, p = ROOT ++ q ∧ is_Some (descend 0 q).

(** ** Occurrences of a character pattern

    Used to say that a page holds no [rel=] followed by a quoted
    [canonical], in any case and with either quote. *)






(** What follows [rel=] in the tag the injector writes. *)
Definition tag_rest (url : text) : text :=
  lit "rel=" ++ [dq] ++ lit "canonical" ++ [dq] ++ lit " href=" ++ [dq] ++
  url ++ [dq] ++ lit ">".


(** ** A sample site

    The layout of the scenario of the specification: one page
    [pages/guides/seo.html] under the site root [/srv/site]. *)

Definition quoted (t : text) : text := dq :: t ++ [dq].

Definition demo_root : path := [lit "srv"; lit "site"].

Definition demo_page : path :=
  PAGES_DIR demo_root ++ [lit "guides"; lit "seo.html"].

Definition demo_target : target :=
  Target (demo_root ++ [lit "guides"; lit "seo"])
         (demo_root ++ [lit "guides"; lit "seo"; lit "index.html"])
         (lit "https://example.com/guides/seo").

Definition demo_html : text :=
  lit "<html><head><title>SEO</title><link rel=" ++ quoted (lit "stylesheet") ++
  lit " href=" ++ quoted (lit "/assets/site.css") ++
  lit "></head><body></body></html>".

(** The sample site with an older clean copy already in place. *)
Definition demo_world : world :=
  World (<[demo_page := demo_html]>
           (<[target_index demo_target := lit "old copy"]> ∅)) [].

(** A page that already has a canonical tag. *)
Definition demo_tagged : text :=
  lit "<head><link rel=" ++ quoted (lit "canonical") ++ lit " href=" ++
  quoted (lit "/old") ++ lit "></head>".

(** A site with a [pages] directory inside [pages/]: the clean target of
    the page [pages/pages/y.html] is [pages/y/index.html], itself a
    page. *)
Definition nested_page : path :=
  PAGES_DIR demo_root ++ [lit "pages"; lit "y.html"].

Definition nested_target : path :=
  PAGES_DIR demo_root ++ [lit "y"; lit "index.html"].

Definition nested_world : world :=
  World (<[nested_page := lit "<p>A</p>"]>
           (<[nested_target := lit "<p>B</p>"]> ∅)) [].

(** A site on which two pages, [pages/a.html] and [pages/a/..html],
    have the same clean target [a/index.html]. *)
Definition shared_world : world :=
  World (<[PAGES_DIR demo_root ++ [lit "a.html"] := lit "<p>1</p>"]>
           (<[PAGES_DIR demo_root ++ [lit "a"; lit "..html"] := lit "<p>2</p>"]>
              (<[demo_root ++ [lit "a"; lit "index.html"] := lit "old copy"]> ∅)))
        [].

(** * Properties *)

(** ** Text and path lemmas *)

Lemma name_snoc (d : path) (x : text) : name (d ++ [x]) = x.
Proof. unfold name. apply List.last_last. Qed.

Lemma rfind_app (c : ascii) (a b : text) :
  rfind c (a ++ b) =
  match rfind c b with
  | Some i => Some (length a + i)
  | None => rfind c a
  end.
Proof.
  induction a as [|x a IH]; simpl.
  - destruct (rfind c b); reflexivity.
  - rewrite IH. destruct (rfind c b); [reflexivity|].
    destruct (rfind c a); reflexivity.
Qed.

Lemma suffix_html (dir : path) (stem : text) :
  stem ≠ [] → suffix (dir ++ [stem ++ HTML_EXT]) = HTML_EXT.
Proof.
  intros Hne. unfold suffix. rewrite name_snoc, rfind_app.
  change (rfind dot HTML_EXT) with (Some 0). cbv iota beta.
  rewrite Nat.add_0_r, length_app.
  change (length HTML_EXT) with 5.
  destruct stem as [|c stem]; [done|].
  replace (0 <? length (c :: stem))%nat with true
    by (symmetry; apply Nat.ltb_lt; simpl; lia).
  replace (length (c :: stem) <? length (c :: stem) + 5 - 1)%nat with true
    by (symmetry; apply Nat.ltb_lt; simpl; lia).
  simpl andb. cbv iota.
  apply drop_app_length.
Qed.

Lemma with_suffix_html (dir : path) (stem : text) :
  stem ≠ [] → with_suffix (dir ++ [stem ++ HTML_EXT]) [] = inr (dir ++ [stem]).
Proof.
  intros Hne. unfold with_suffix.
  rewrite bool_decide_eq_false_2 by apply not_elem_of_nil.
  rewrite (bool_decide_eq_true_2 (@nil ascii = [])) by done.
  rewrite (bool_decide_eq_false_2 (@nil ascii = [dot])) by done.
  simpl. rewrite name_snoc, suffix_html by done.
  rewrite bool_decide_eq_false_2 by (destruct stem; done).
  rewrite (bool_decide_eq_false_2 (HTML_EXT = [])) by done.
  rewrite removelast_last, app_nil_r, length_app.
  replace (length stem + length HTML_EXT - length HTML_EXT) with (length stem)
    by lia.
  by rewrite take_app_length.
Qed.

Lemma relative_to_app (base rel : path) : relative_to (base ++ rel) base = inr rel.
Proof.
  induction base as [|b base IH]; simpl; [by destruct rel|].
  by rewrite bool_decide_eq_true_2.
Qed.


Lemma joinpath_names (a b : path) :
  Forall (fun x => x ≠ [] ∧ x ≠ [dot]) b → joinpath a b = a ++ b.
Proof.
  intros H. unfold joinpath. f_equal.
  induction H as [|x b Hx Hb IH]; [done|].
  rewrite filter_cons_True by done. by rewrite IH.
Qed.

Lemma PAGES_DIR_eq (ROOT : path) : PAGES_DIR ROOT = ROOT ++ [lit "pages"].
Proof. unfold PAGES_DIR. apply joinpath_names. by repeat constructor. Qed.

Lemma joinpath_index (a : path) :
  joinpath a [lit "index.html"] = a ++ [lit "index.html"].
Proof. apply joinpath_names. by repeat constructor. Qed.

Lemma join_slash (d : text) (dir : path) (x : text) :
  slash ∈ join [slash] (d :: dir ++ [x]).
Proof.
  simpl. destruct (dir ++ [x]) eqn:E; [by destruct dir|].
  rewrite elem_of_app. right. by left.
Qed.

Lemma str_rel_index (dir : path) (stem : text) :
  str_rel (dir ++ [stem]) = lit "index" → dir = [] ∧ stem = lit "index".
Proof.
  destruct dir as [|d dir]; simpl; [done|].
  intros H. pose proof (join_slash d dir stem) as Hs. simpl in Hs.
  rewrite H in Hs. apply list_elem_of_In in Hs. simpl in Hs.
  unfold slash in Hs. intuition discriminate.
Qed.

Lemma with_suffix_hidden_html (dir : path) :
  with_suffix (dir ++ [HTML_EXT]) [] = inr (dir ++ [HTML_EXT]).
Proof.
  unfold with_suffix, suffix.
  rewrite bool_decide_eq_false_2 by apply not_elem_of_nil.
  rewrite (bool_decide_eq_true_2 (@nil ascii = [])) by done.
  rewrite (bool_decide_eq_false_2 (@nil ascii = [dot])) by done.
  simpl. rewrite name_snoc. simpl.
  by rewrite removelast_last.
Qed.

Lemma rstrip_spec (c : ascii) (s : text) :
  ∃ k, s = rstrip c s ++ repeat c k ∧
       (rstrip c s = [] ∨ ∃ l y, rstrip c s = l ++ [y] ∧ y ≠ c).
Proof.
  induction s as [|x s (k & Hs & Hlast)].
  - exists 0. split; [done|by left].
  - unfold rstrip in *. simpl. destruct (foldr _ [] s) as [|z r] eqn:E.
    + destruct (Ascii.eqb_spec x c) as [->|Hne].
      * exists (S k). split; [by rewrite Hs at 1|by left].
      * exists k. split; [by rewrite Hs at 1|].
        right. by exists [], x.
    + exists k. split; [by rewrite Hs at 1|].
      right. destruct Hlast as [|(l & y & Hl & Hy)]; [done|].
      exists (x :: l), y. by rewrite Hl.
Qed.

Lemma descend_names (d : nat) (q : path) :
  Forall (fun x => x ≠ lit "..") q → is_Some (descend d q).
Proof.
  intros H. revert d. induction H as [|x q Hx Hq IH]; intros d; simpl; [done|].
  rewrite bool_decide_eq_false_2 by done. by case_bool_decide.
Qed.

(** ** The path mapper *)

(** C1 (as amended).  For a page below the pages root whose final
    component is a stem followed by [.html], the stem being neither empty
    nor a single dot, whose directories are ordinary names (not empty,
    not a single dot), and which is not the root-level [index.html], the
    clean target directory is the site root followed by the directories
    of the page and the stem, and the clean copy is [index.html] in that
    directory. *)
Theorem clean_target_strips_extension
    (ROOT : path) (domain_ : text) (dir : path) (stem : text) :
  Forall (fun x => x ≠ [] ∧ x ≠ [dot]) dir →
  stem ≠ [] → stem ≠ [dot] →
  ¬ (dir = [] ∧ stem = lit "index") →
  clean_target ROOT domain_ (PAGES_DIR ROOT ++ dir ++ [stem ++ HTML_EXT]) =
  inr (Target (ROOT ++ dir ++ [stem])
              (ROOT ++ dir ++ [stem; lit "index.html"])
              (rstrip slash domain_ ++ lit "/" ++
               replace [backslash] [slash] (join [slash] (dir ++ [stem])))).
Proof.
  intros Hdir Hne Hdot Hidx. unfold clean_target.
  rewrite relative_to_app, with_suffix_html by done.
  rewrite bool_decide_eq_false_2
    by (intros H; apply str_rel_index in H; tauto).
  assert (Hnames : Forall (fun x : text => x ≠ [] ∧ x ≠ [dot]) (dir ++ [stem]))
    by (apply Forall_app; split; [done|by repeat constructor]).
  rewrite joinpath_names, joinpath_index by done.
  do 2 f_equal.
  - by rewrite <- !app_assoc.
  - unfold str_rel. by destruct (dir ++ [stem]) eqn:E; [destruct dir|].
Qed.

(** The hypotheses of [clean_target_strips_extension] hold for
    [pages/guides/seo.html]. *)
Lemma clean_target_strips_extension_witness :
  clean_target [lit "srv"; lit "site"] (lit "https://example.com")
    (PAGES_DIR [lit "srv"; lit "site"] ++ [lit "guides"] ++
     [lit "seo" ++ HTML_EXT]) =
  inr (Target [lit "srv"; lit "site"; lit "guides"; lit "seo"]
         [lit "srv"; lit "site"; lit "guides"; lit "seo"; lit "index.html"]
         (lit "https://example.com/guides/seo")).
Proof.
  apply (clean_target_strips_extension
           [lit "srv"; lit "site"] (lit "https://example.com")
           [lit "guides"] (lit "seo")).
  - by repeat constructor.
  - done.
  - done.
  - by intros [? _].
Defined.

(** C1 fails as stated: a page named [.html] has no suffix for pathlib,
    nothing is stripped, and the clean copy lands in a directory that is
    itself called [.html]. *)
Lemma clean_target_hidden_html_counterexample :
  let ROOT : path := [lit "srv"; lit "site"] in
  let dir : path := [] in
  let stem : text := [] in
  let f : path := PAGES_DIR ROOT ++ dir ++ [stem ++ HTML_EXT] in
  find_page_files ROOT (World {[ f := lit "<p>" ]} []) = [f] ∧
  ∃ t, clean_target ROOT (lit "https://gotoolly.com") f = inr t ∧
       target_index t = ROOT ++ [lit ".html"; lit "index.html"] ∧
       target_index t ≠ ROOT ++ dir ++ [stem; lit "index.html"] ∧
       target_index t ≠ ROOT ++ dir ++ [lit "index.html"].
Proof.
  split; [by vm_compute|].
  eexists. split; [vm_compute; reflexivity|]. by repeat split.
Qed.

Lemma clean_target_root_index (ROOT : path) (domain_ : text) :
  clean_target ROOT domain_ (PAGES_DIR ROOT ++ [lit "index.html"]) =
  inr (Target ROOT (ROOT ++ [lit "index.html"]) (rstrip slash domain_ ++ [slash])).
Proof.
  unfold clean_target. rewrite relative_to_app.
  change [lit "index.html"] with ([] ++ [lit "index" ++ HTML_EXT]).
  rewrite with_suffix_html by done. simpl app.
  rewrite bool_decide_eq_true_2 by done.
  by rewrite joinpath_index.
Qed.

(** C2.  The page [index.html] at the pages root maps to the site root:
    its clean copy is the top-level [index.html] and its canonical URL is
    the domain without its trailing slashes, followed by one slash. *)
Theorem root_index_maps_to_site_root (ROOT : path) (domain_ : text) :
  clean_target ROOT domain_ (PAGES_DIR ROOT ++ [lit "index.html"]) =
    inr (Target ROOT (ROOT ++ [lit "index.html"])
                (rstrip slash domain_ ++ [slash])) ∧
  (∃ k, domain_ = rstrip slash domain_ ++ repeat slash k) ∧
  ends_with [slash] (rstrip slash domain_) = false.
Proof.
  split; [|split].
  - apply clean_target_root_index.
  - destruct (rstrip_spec slash domain_) as (k & Hk & _). by exists k.
  - destruct (rstrip_spec slash domain_) as (k & _ & [->|(l & y & -> & Hy)]);
      [done|].
    unfold ends_with. rewrite rev_app_distr. simpl.
    destruct (Ascii.eqb_spec slash y); [congruence|done].
Qed.

(** C9 (as amended).  For a page below the pages root none of whose
    directories is [..] and whose stem is not [..], the mapper returns a
    target, and the target directory and index file lie within the site
    root. *)
Theorem clean_target_within_root
    (ROOT : path) (domain_ : text) (dir : path) (stem : text) :
  Forall (fun x => x ≠ lit "..") dir →
  stem ≠ lit ".." →
  ∃ t, clean_target ROOT domain_ (PAGES_DIR ROOT ++ dir ++ [stem ++ HTML_EXT])
         = inr t ∧
       within_root ROOT (target_dir t) ∧
       within_root ROOT (target_index t).
Proof.
  intros Hdir Hstem. unfold clean_target. rewrite relative_to_app.
  assert (∃ n, with_suffix (dir ++ [stem ++ HTML_EXT]) [] = inr (dir ++ [n])
               ∧ n ≠ lit "..") as (n & -> & Hn).
  { destruct stem as [|c stem].
    - exists HTML_EXT. split; [apply with_suffix_hidden_html|done].
    - exists (c :: stem). split; [by apply with_suffix_html|done]. }
  case_bool_decide.
  - eexists. split; [reflexivity|]. simpl. split.
    + exists []. by rewrite app_nil_r.
    + exists [lit "index.html"]. by rewrite joinpath_index.
  - eexists. split; [reflexivity|]. simpl.
    assert (Hq : Forall (fun x => x ≠ lit "..")
                   (filter (fun x : text => x ≠ [] ∧ x ≠ [dot]) (dir ++ [n]))).
    { apply Forall_forall. intros x [_ Hx]%list_elem_of_filter.
      revert x Hx. apply Forall_forall, Forall_app.
      split; [done|by repeat constructor]. }
    split.
    + eexists. split; [reflexivity|]. by apply descend_names.
    + rewrite joinpath_index. unfold joinpath. rewrite <- app_assoc.
      eexists. split; [reflexivity|].
      apply descend_names, Forall_app. split; [done|by repeat constructor].
Qed.

(** The hypotheses of [clean_target_within_root] hold for
    [pages/guides/seo.html]. *)
Lemma clean_target_within_root_witness :
  ∃ t, clean_target [lit "srv"; lit "site"] (lit "https://example.com")
         (PAGES_DIR [lit "srv"; lit "site"] ++ [lit "guides"] ++
          [lit "seo" ++ HTML_EXT]) = inr t ∧
       within_root [lit "srv"; lit "site"] (target_dir t) ∧
       within_root [lit "srv"; lit "site"] (target_index t).
Proof.
  apply (clean_target_within_root [lit "srv"; lit "site"]
           (lit "https://example.com") [lit "guides"] (lit "seo")).
  - by repeat constructor.
  - done.
Defined.

(** C9 fails as stated: for a page named [...html] pathlib takes [.html]
    as the suffix and leaves [..] as the stem, so the target directory is
    the parent of the site root.  Nothing detects it: the mapper returns,
    and a run in apply mode writes the clean copy outside the site. *)
Lemma clean_target_escapes_root_counterexample :
  let ROOT : path := [lit "srv"; lit "site"] in
  let f : path := PAGES_DIR ROOT ++ [lit "...html"] in
  let w : world := World {[ f := lit "x" ]} [] in
  find_page_files ROOT w = [f] ∧
  (∃ t, clean_target ROOT (lit "https://gotoolly.com") f = inr t ∧
        target_dir t = ROOT ++ [lit ".."] ∧
        ¬ within_root ROOT (target_dir t) ∧
        ¬ within_root ROOT (target_index t)) ∧
  (∃ w', run ROOT (cli true false false false (lit "https://gotoolly.com")) w
           = Returned tt w' ∧
         files w' !! (ROOT ++ [lit ".."; lit "index.html"]) =
         Some (canonical_tag (lit "https://gotoolly.com/..") ++ lit "x")).
Proof.
  split; [by vm_compute|]. split.
  - eexists. split; [by vm_compute|]. split; [done|].
    split; intros (q & Hq & Hs); simpl in Hq; simplify_eq;
      vm_compute in Hs; destruct Hs as [? Hs]; discriminate Hs.
  - eexists. split; [vm_compute; reflexivity|].
    vm_compute. reflexivity.
Qed.

(** ** Backups and the legacy redirect *)

Lemma write_backup_html (d : path) (stem c : text) (w : world) :
  stem ≠ [] →
  files w !! (d ++ [stem ++ HTML_EXT]) = Some c →
  write_backup (d ++ [stem ++ HTML_EXT]) w =
  Returned (d ++ [stem ++ lit ".html.bak"])
    (World (<[d ++ [stem ++ lit ".html.bak"] := c]> (files w))
           (journal w ++ [Copied (d ++ [stem ++ HTML_EXT])
                                 (d ++ [stem ++ lit ".html.bak"])])).
Proof.
  intros Hne Hc. unfold write_backup, bind, lift.
  rewrite suffix_html by done. unfold with_suffix.
  rewrite bool_decide_eq_false_2
    by (intros H; apply list_elem_of_In in H; simpl in H; unfold slash in H;
        intuition discriminate).
  rewrite (bool_decide_eq_false_2 (HTML_EXT ++ lit ".bak" = [])) by done.
  rewrite (bool_decide_eq_false_2 (HTML_EXT ++ lit ".bak" = [dot])) by done.
  change (starts_with [dot] (HTML_EXT ++ lit ".bak")) with true.
  simpl negb. simpl orb. cbv iota.
  rewrite name_snoc, suffix_html by done.
  rewrite bool_decide_eq_false_2 by (destruct stem; done).
  rewrite (bool_decide_eq_false_2 (HTML_EXT = [])) by done.
  rewrite removelast_last, length_app.
  replace (length stem + length HTML_EXT - length HTML_EXT) with (length stem)
    by lia.
  rewrite take_app_length. unfold ret, copy2. cbn [negb andb orb].
  rewrite Hc. reflexivity.
Qed.


(** ** The generator *)

Lemma bind_returned {A B} (m : M A) (k : A → M B) (w w' : world) (a : A) :
  m w = Returned a w' → bind m k w = k a w'.
Proof. intros H. unfold bind. by rewrite H. Qed.

Lemma exists_true (p : path) (w : world) :
  is_Some (files w !! p) → exists_ p w = Returned true w.
Proof. intros H. unfold exists_. by rewrite bool_decide_eq_true_2. Qed.

Lemma clean_target_index (ROOT : path) (domain_ : text) (f : path) (t : target) :
  clean_target ROOT domain_ f = inr t →
  target_index t = target_dir t ++ [lit "index.html"].
Proof.
  unfold clean_target. destruct (relative_to _ _); [done|].
  destruct (with_suffix _ _); [done|].
  case_bool_decide; intros [= <-]; cbn [target_index target_dir];
    by rewrite joinpath_index.
Qed.








Lemma world_of_bind_ret {A B} (m : M A) (g : A → B) (w : world) :
  world_of ((x <- m ;; ret (g x)) w) = world_of (m w).
Proof. unfold bind. by destruct (m w). Qed.

(** ** Runs without [--force]

    Without [--force] a run only adds files outside [pages/]: whatever it
    does, and whether it ends normally or with an exception, every file
    that existed before the run and does not lie below the pages root
    has the content it had. *)

Lemma world_of_bind {A B} (m : M A) (k : A → M B) (w : world) :
  world_of (bind m k w) =
  match m w with
  | Returned a w' => world_of (k a w')
  | Raised _ w' => w'
  end.
Proof. unfold bind. by destruct (m w). Qed.





(** ** Skipping an existing target *)

Lemma create_or_skip_existing
    (cfg : config) (f : path) (t : target) (created : list path) (w : world) :
  force cfg = false →
  is_Some (files w !! target_index t) →
  create_or_skip cfg f t created w =
  Returned created (World (files w) (journal w ++ [Printed (skip_line t)])).
Proof.
  intros Hforce Hex. unfold create_or_skip.
  erewrite bind_returned by (by apply exists_true).
  rewrite Hforce. cbn [negb andb]. reflexivity.
Qed.

Lemma found_page_has_target (ROOT : path) (domain_ : text) (w : world) (f : path) :
  f ∈ find_page_files ROOT w → ∃ t, clean_target ROOT domain_ f = inr t.
Proof.
  unfold find_page_files.
  intros [_ [(Hpre & Hne & Hext) _]%list_elem_of_filter]%list_elem_of_filter.
  destruct Hpre as [rel ->]. fold (PAGES_DIR ROOT) in Hne.
  unfold clean_target. rewrite relative_to_app.
  assert (Hrel : rel ≠ []) by (intros ->; by rewrite app_nil_r in Hne).
  destruct (exists_last Hrel) as (d & n & ->).
  rewrite app_assoc, name_snoc in Hext.
  unfold with_suffix.
  rewrite bool_decide_eq_false_2 by apply not_elem_of_nil.
  rewrite (bool_decide_eq_true_2 (@nil ascii = [])) by done.
  rewrite (bool_decide_eq_false_2 (@nil ascii = [dot])) by done.
  cbn [negb andb orb]. rewrite name_snoc.
  rewrite bool_decide_eq_false_2 by (by intros ->).
  cbv zeta. case_bool_decide; by eexists.
Qed.

Lemma dry_run_loop (ROOT : path) (cfg : config) (fs : list path)
    (acc : list path * list path) (w : world) :
  dry_run cfg = true →
  (∀ f, f ∈ fs → ∃ t, clean_target ROOT (domain cfg) f = inr t) →
  ∃ lines, run_loop ROOT cfg fs acc w =
           Returned acc (World (files w) (journal w ++ map Printed lines)).
Proof.
  intros Hdry. revert w. induction fs as [|f fs IH]; intros w Hfs.
  - exists []. cbn [run_loop map]. by rewrite app_nil_r; destruct w.
  - destruct (Hfs f) as [t Ht]; [by left|].
    destruct (IH (World (files w) (journal w ++ [Printed (dry_line f t)])))
      as [lines Hlines]; [intros f' Hf'; apply Hfs; by right|].
    eexists (_ :: lines). cbn [run_loop].
    erewrite bind_returned.
    2:{ unfold process_file. rewrite Ht, Hdry. cbn [lift].
        erewrite bind_returned by reflexivity.
        erewrite bind_returned by reflexivity. reflexivity. }
    rewrite Hlines. cbn [files journal map]. by rewrite <- app_assoc.
Qed.

(** C3.  A dry run returns normally and leaves the file tree exactly as
    it was, whatever the other flags and the domain are: all it does is
    print. *)
Theorem dry_run_writes_nothing (ROOT : path) (cfg : config) (w : world) :
  dry_run cfg = true →
  ∃ lines, run ROOT cfg w =
           Returned tt (World (files w) (journal w ++ map Printed lines)).
Proof.
  intros Hdry. unfold run.
  destruct (dry_run_loop ROOT cfg (find_page_files ROOT w) ([], []) w Hdry)
    as [lines Hlines]; [intros f Hf; by eapply found_page_has_target|].
  eexists (lines ++ [_]). erewrite bind_returned by apply Hlines.
  unfold print, log. cbn [files journal].
  rewrite map_app, (app_assoc (journal w)). reflexivity.
Qed.

(** The hypothesis of [dry_run_writes_nothing] holds for a run without
    [--apply], all other flags set. *)
Lemma dry_run_writes_nothing_witness :
  ∃ lines,
    run demo_root (cli false true true true (lit "https://example.com"))
      demo_world =
    Returned tt (World (files demo_world)
                       (journal demo_world ++ map Printed lines)).
Proof.
  apply (dry_run_writes_nothing demo_root
           (cli false true true true (lit "https://example.com")) demo_world).
  reflexivity.
Defined.


(** ** Substrings and replacement *)

Lemma starts_with_app (p s : text) : starts_with p (p ++ s) = true.
Proof. induction p as [|a p IH]; [done|]. simpl. by rewrite Ascii.eqb_refl. Qed.

Lemma contains_prefix (m s : text) : contains m (m ++ s) = true.
Proof.
  destruct (m ++ s) eqn:E; simpl; rewrite <- E, starts_with_app; done.
Qed.

Lemma contains_app_r (m a b : text) :
  contains m b = true → contains m (a ++ b) = true.
Proof.
  intros H. induction a as [|x a IH]; [done|].
  simpl. rewrite IH. apply orb_true_r.
Qed.

Lemma replace_from_infix (old new s : text) :
  old ≠ [] → contains old s = true →
  ∃ a b, replace_from 0 old new s = a ++ new ++ b.
Proof.
  intros Hold. induction s as [|c s IH]; intros H.
  - destruct old; [done|]. discriminate H.
  - cbn [replace_from]. destruct (starts_with old (c :: s)) eqn:Hs.
    + by exists [], (replace_from (length old - 1) old new s).
    + cbn [contains] in H. rewrite Hs in H.
      destruct (IH H) as (a & b & ->). by exists (c :: a), b.
Qed.

Lemma replace_head_close (new s : text) :
  replace head_close new s = replace_from 0 head_close new s.
Proof. reflexivity. Qed.

(** ** The redirect injector *)

(** C7.  Applying the redirect injector a second time with the same
    target and delay changes nothing: the output is the first output and
    the flag is false. *)
Theorem add_meta_refresh_idempotent (content target_url : text) (seconds : Z) :
  add_meta_refresh (fst (add_meta_refresh content target_url seconds))
                   target_url seconds =
  (fst (add_meta_refresh content target_url seconds), false).
Proof.
  unfold add_meta_refresh.
  destruct (contains (refresh_tag target_url seconds) content) eqn:Hmeta;
    cbn [fst].
  - by rewrite Hmeta.
  - destruct (contains head_close content) eqn:Hhead; cbn [fst].
    + rewrite replace_head_close.
      destruct (replace_from_infix head_close
                  (lit "  " ++ refresh_tag target_url seconds ++ head_close)
                  content) as (a & b & ->); [done|done|].
      rewrite <- !app_assoc.
      by rewrite contains_app_r
        by apply contains_app_r, contains_prefix.
    + by rewrite contains_prefix.
Qed.

(** ** The regular expression engine *)

Lemma starts_with_ci_take (l s : text) :
  starts_with_ci l s = true →
  starts_with_ci l (take (length l) s) = true ∧
  length (take (length l) s) = length l.
Proof.
  revert s. induction l as [|a l IH]; intros s H; [done|].
  destruct s as [|b s]; [done|]. simpl in *.
  apply andb_true_iff in H as [-> H]. destruct (IH s H) as [-> ->]. done.
Qed.

Lemma starts_with_ci_app (l x rest : text) :
  starts_with_ci l x = true → starts_with_ci l (x ++ rest) = true.
Proof.
  revert x. induction l as [|a l IH]; intros x H; [done|].
  destruct x as [|b x]; [done|]. simpl in *.
  apply andb_true_iff in H as [-> H]. by rewrite IH.
Qed.

Section BacktrackingFacts.
Context {A : Type}.
Implicit Types k : text → text → option A.

Lemma star_sound p s k v :
  star p s k = Some v →
  ∃ x rest, s = x ++ rest ∧ forallb p x = true ∧ k x rest = Some v.
Proof.
  revert k. induction s as [|c s IH]; intros k H; simpl in H.
  - by exists [], [].
  - destruct (p c) eqn:Hc; [|by exists [], (c :: s)].
    destruct (star p s (λ x r, k (c :: x) r)) as [v'|] eqn:Hs.
    + injection H as ->. apply IH in Hs as (x & rest & -> & Hx & Hk).
      exists (c :: x), rest. simpl. by rewrite Hc, Hx.
    + by exists [], (c :: s).
Qed.

Lemma star_empty p s k : is_Some (k [] s) → is_Some (star p s k).
Proof.
  intros H. destruct s as [|c s]; [done|]. simpl.
  destruct (p c); [|done]. by destruct (star p s _).
Qed.

Lemma star_complete p x rest k :
  forallb p x = true → is_Some (k x rest) → is_Some (star p (x ++ rest) k).
Proof.
  revert k. induction x as [|c x IH]; intros k Hx Hk.
  - by apply star_empty.
  - simpl in *. apply andb_true_iff in Hx as [-> Hx].
    destruct (IH (λ x r, k (c :: x) r) Hx Hk) as [v ->]. done.
Qed.

Lemma bt_sound r s k v :
  bt r s k = Some v →
  ∃ x rest, s = x ++ rest ∧ lang r x ∧ k x rest = Some v.
Proof.
  revert s k v. induction r as [l|p|p|p|r1 IH1 r2 IH2]; intros s k v H;
    simpl in H.
  - destruct (starts_with_ci l s) eqn:Hl; [|done].
    exists (take (length l) s), (drop (length l) s).
    split; [by rewrite take_drop|]. split; [|done].
    by apply starts_with_ci_take.
  - destruct s as [|c s]; [done|]. destruct (p c) eqn:Hc; [|done].
    exists [c], s. split; [done|]. split; [|done]. by exists c.
  - by apply star_sound.
  - destruct s as [|c s]; [done|]. destruct (p c) eqn:Hc; [|done].
    apply star_sound in H as (x & rest & -> & Hx & Hk).
    exists (c :: x), rest. split; [done|]. split; [|done].
    simpl. by rewrite Hc, Hx.
  - apply IH1 in H as (x1 & s1 & -> & H1 & H).
    apply IH2 in H as (x2 & s2 & -> & H2 & H).
    exists (x1 ++ x2), s2. split; [by rewrite app_assoc|].
    split; [|done]. by exists x1, x2.
Qed.

Lemma bt_complete r x rest k :
  lang r x → is_Some (k x rest) → is_Some (bt r (x ++ rest) k).
Proof.
  revert x rest k.
  induction r as [l|p|p|p|r1 IH1 r2 IH2]; intros x rest k Hx Hk; simpl in *.
  - destruct Hx as [Hl Hlen]. rewrite starts_with_ci_app by done.
    rewrite <- Hlen. by rewrite take_app_length, drop_app_length.
  - destruct Hx as (c & -> & Hc). simpl. by rewrite Hc.
  - by apply star_complete.
  - destruct Hx as [Hne Hx]. destruct x as [|c x]; [done|]. simpl in *.
    apply andb_true_iff in Hx as [-> Hx]. by apply star_complete.
  - destruct Hx as (x1 & x2 & -> & H1 & H2). rewrite <- app_assoc.
    apply IH1; [done|]. apply IH2; [done|]. done.
Qed.
End BacktrackingFacts.

(** ** The canonical pattern *)

Lemma canonical_match_at_sound (s : text) (m : canon_match) :
  canonical_match_at s = Some m →
  s = matched m ++ after m ∧
  lang CANONICAL_G1 (group1 m) ∧
  lang CANONICAL_G2 (group2 m) ∧
  lang CANONICAL_G3 (group3 m).
Proof.
  unfold canonical_match_at. intros H.
  apply bt_sound in H as (g1 & s1 & -> & H1 & H).
  apply bt_sound in H as (g2 & s2 & -> & H2 & H).
  apply bt_sound in H as (g3 & s3 & -> & H3 & H).
  injection H as <-. unfold matched. cbn [group1 group2 group3 after].
  by rewrite <- !app_assoc.
Qed.

Lemma canonical_match_at_RE (s : text) (m : canon_match) :
  canonical_match_at s = Some m → lang CANONICAL_RE (matched m).
Proof.
  intros (_ & H1 & H2 & H3)%canonical_match_at_sound.
  exists (group1 m), (group2 m ++ group3 m). split; [done|]. split; [done|].
  by exists (group2 m), (group3 m).
Qed.

Lemma canonical_match_at_complete (g1 g2 g3 rest : text) :
  lang CANONICAL_G1 g1 → lang CANONICAL_G2 g2 → lang CANONICAL_G3 g3 →
  is_Some (canonical_match_at (g1 ++ g2 ++ g3 ++ rest)).
Proof.
  intros H1 H2 H3. unfold canonical_match_at.
  apply bt_complete; [done|]. apply bt_complete; [done|].
  by apply bt_complete.
Qed.

Lemma lang_G1_nonempty (g1 : text) : lang CANONICAL_G1 g1 → g1 ≠ [].
Proof.
  intros (x1 & x2 & -> & [_ Hlen] & _). destruct x1; [done|done].
Qed.

Lemma canonical_sub_from_skip (url w rest : text) :
  canonical_sub_from (length w) url (w ++ rest) = canonical_sub_from 0 url rest.
Proof. induction w as [|c w IH]; [done|]. simpl. apply IH. Qed.

Lemma canonical_sub_match (url s : text) (m : canon_match) :
  canonical_match_at s = Some m →
  canonical_sub url s =
  group1 m ++ url ++ group3 m ++ canonical_sub url (after m).
Proof.
  intros H. pose proof (canonical_match_at_sound s m H) as (Hs & H1 & _ & _).
  apply lang_G1_nonempty in H1.
  unfold canonical_sub. destruct s as [|c s].
  { unfold matched in Hs. destruct (group1 m); [done|discriminate Hs]. }
  cbn [canonical_sub_from]. rewrite H.
  do 3 f_equal. fold (matched m).
  destruct (matched m) as [|c' w] eqn:Hm.
  { unfold matched in Hm. destruct (group1 m); [done|discriminate Hm]. }
  injection Hs as -> ->. simpl. rewrite Nat.sub_0_r.
  apply canonical_sub_from_skip.
Qed.

Lemma canonical_sub_nomatch (url : text) (c : ascii) (s : text) :
  canonical_match_at (c :: s) = None →
  canonical_sub url (c :: s) = c :: canonical_sub url s.
Proof. intros H. unfold canonical_sub. cbn [canonical_sub_from]. by rewrite H. Qed.

Lemma canonical_search_spec (url s pre : text) (m : canon_match) :
  canonical_search s = Some (pre, m) →
  s = pre ++ matched m ++ after m ∧
  canonical_match_at (matched m ++ after m) = Some m ∧
  canonical_sub url s =
  pre ++ group1 m ++ url ++ group3 m ++ canonical_sub url (after m).
Proof.
  revert pre. induction s as [|c s IH]; intros pre; cbn [canonical_search].
  - destruct (canonical_match_at []) as [m'|] eqn:Hm; [|done].
    intros [= <- <-]. destruct (canonical_match_at_sound _ _ Hm) as [Hs _].
    rewrite <- Hs. split; [done|]. split; [done|].
    by apply canonical_sub_match.
  - destruct (canonical_match_at (c :: s)) as [m'|] eqn:Hm.
    + intros [= <- <-]. destruct (canonical_match_at_sound _ _ Hm) as [Hs _].
      rewrite <- Hs. split; [done|]. split; [done|].
      by apply canonical_sub_match.
    + destruct (canonical_search s) as [[pre' m']|]; [|done].
      intros [= <- <-]. destruct (IH pre' eq_refl) as (-> & Hat & Hsub).
      split; [done|]. split; [done|].
      rewrite canonical_sub_nomatch by done. by rewrite Hsub.
Qed.

Lemma canonical_search_none (url s : text) :
  canonical_search s = None → canonical_sub url s = s.
Proof.
  induction s as [|c s IH]; cbn [canonical_search]; [done|].
  destruct (canonical_match_at (c :: s)) eqn:Hm; [done|].
  destruct (canonical_search s) as [[? ?]|]; [done|]. intros _.
  rewrite canonical_sub_nomatch by done. by rewrite IH.
Qed.

Lemma text_eqb_neq (a b : text) : negb (text_eqb a b) = true ↔ a ≠ b.
Proof.
  unfold text_eqb. case_bool_decide; simpl; split; congruence.
Qed.

(** The first quote of a text fixes the quote-free text before it. *)
Lemma quote_free_prefix (a b : text) (q q' : ascii) (r r' : text) :
  forallb not_quote a = true → forallb not_quote b = true →
  is_quote q = true → is_quote q' = true →
  a ++ q :: r = b ++ q' :: r' → a = b ∧ r = r'.
Proof.
  revert b. induction a as [|x a IH]; intros b Ha Hb Hq Hq' H.
  - destruct b as [|y b]; [by injection H as -> ->|].
    injection H as -> H. simpl in Hb. unfold not_quote in Hb at 1.
    by rewrite Hq in Hb.
  - destruct b as [|y b].
    + injection H as -> H. simpl in Ha. unfold not_quote in Ha at 1.
      by rewrite Hq' in Ha.
    + injection H as -> H. simpl in Ha, Hb.
      apply andb_true_iff in Ha as [_ Ha]. apply andb_true_iff in Hb as [_ Hb].
      by destruct (IH b Ha Hb Hq Hq' H) as [-> ->].
Qed.

(** ** The canonical injector on a page that has a canonical tag *)

(** C8 (as amended).  When the canonical pattern matches, let the
    leftmost match be the groups [g1], [v], [g3] after the text [pre]:
    [g1] ends with [href=] and a quote, [v] is the non-empty quote-free
    text after that quote, [g3] starts with the closing quote.  The
    injector puts the URL in the place of [v] and keeps [pre], [g1] and
    [g3] as they are; the text after the match is rewritten in the same
    way.  When that text holds no further match the output is
    [pre g1 url g3 rest] and the flag is true exactly when [v] differs
    from the URL; with further matches and a quote-free URL the flag is
    true exactly when some replaced value differs. *)
Theorem canonical_value_replaced (content url pre : text) (m : canon_match) :
  canonical_search content = Some (pre, m) →
  content = pre ++ group1 m ++ group2 m ++ group3 m ++ after m ∧
  lang CANONICAL_G1 (group1 m) ∧
  lang CANONICAL_G2 (group2 m) ∧
  lang CANONICAL_G3 (group3 m) ∧
  fst (add_canonical_to_html content url) =
    pre ++ group1 m ++ url ++ group3 m ++ canonical_sub url (after m) ∧
  (canonical_search (after m) = None →
   add_canonical_to_html content url =
   (pre ++ group1 m ++ url ++ group3 m ++ after m,
    negb (text_eqb (group2 m) url))) ∧
  (forallb not_quote url = true →
   (snd (add_canonical_to_html content url) = true ↔
    group2 m ≠ url ∨ canonical_sub url (after m) ≠ after m)).
Proof.
  intros Hsearch.
  destruct (canonical_search_spec url _ _ _ Hsearch) as (Hc & Hat & Hsub).
  destruct (canonical_match_at_sound _ _ Hat) as (_ & H1 & H2 & H3).
  unfold matched in Hc. rewrite <- !app_assoc in Hc.
  unfold add_canonical_to_html. rewrite Hsearch. cbn [fst snd].
  split; [done|]. do 3 (split; [done|]). split; [done|]. split.
  - intros Hnone. rewrite Hsub, (canonical_search_none url _ Hnone).
    f_equal. rewrite Hc. unfold text_eqb.
    destruct (decide (group2 m = url)) as [Hv|Hv].
    + rewrite Hv. by rewrite !bool_decide_eq_true_2.
    + rewrite (bool_decide_eq_false_2 (group2 m = url)) by done.
      rewrite bool_decide_eq_false_2; [done|].
      intros Heq. do 2 apply app_inv_head in Heq.
      rewrite !app_assoc in Heq. do 2 apply app_inv_tail in Heq.
      congruence.
  - intros Hurl. rewrite text_eqb_neq, Hsub. rewrite Hc.
    destruct H2 as [_ Hv].
    destruct H3 as (q & z & -> & (c & -> & Hq) & _).
    split.
    + intros Hne. destruct (decide (group2 m = url)) as [Hv'|]; [|by left].
      right. intros Hafter. apply Hne. by rewrite Hv', Hafter.
    + intros Hor Heq. do 2 apply app_inv_head in Heq.
      rewrite <- !app_assoc in Heq. simpl in Heq.
      apply quote_free_prefix in Heq as [Heq1 Heq2]; [|done..].
      apply app_inv_head in Heq2. destruct Hor; congruence.
Qed.

(** The hypothesis of [canonical_value_replaced] holds for a page with
    one canonical tag. *)
Lemma canonical_value_replaced_witness :
  add_canonical_to_html demo_tagged (lit "/new") =
  (lit "<head><link rel=" ++ quoted (lit "canonical") ++ lit " href=" ++
   quoted (lit "/new") ++ lit "></head>", true).
Proof.
  destruct (canonical_value_replaced demo_tagged (lit "/new") (lit "<head>")
              (CanonMatch
                 (lit "<link rel=" ++ quoted (lit "canonical") ++
                  lit " href=" ++ [dq])
                 (lit "/old") (dq :: lit ">") (lit "</head>")))
    as (_ & _ & _ & _ & _ & Hone & _).
  - vm_compute. reflexivity.
  - rewrite Hone by (vm_compute; reflexivity). vm_compute. reflexivity.
Defined.

(** C8 fails as stated.  A canonical tag written with [href] before
    [rel] is not seen by the pattern: its URL is left alone and a second
    tag is inserted.  And the pattern takes the last [href=] before the
    tag's closing bracket: with a later attribute whose name ends in
    [href], the injector rewrites that attribute, leaves the tag's own
    [href] alone, and reports a change although the [href] value already
    was the new URL. *)
Lemma canonical_tag_not_replaced_counterexample :
  let href_first :=
    lit "<link href=" ++ quoted (lit "/old") ++ lit " rel=" ++
    quoted (lit "canonical") ++ lit ">" in
  let two_hrefs :=
    lit "<link rel=" ++ quoted (lit "canonical") ++ lit " href=" ++
    quoted (lit "/new") ++ lit " data-href=" ++ quoted (lit "/x") ++ lit ">" in
  add_canonical_to_html href_first (lit "/new") =
    (canonical_tag (lit "/new") ++ href_first, true) ∧
  is_Some (canonical_search two_hrefs) ∧
  add_canonical_to_html two_hrefs (lit "/new") =
    (lit "<link rel=" ++ quoted (lit "canonical") ++ lit " href=" ++
     quoted (lit "/new") ++ lit " data-href=" ++ quoted (lit "/new") ++
     lit ">", true).
Proof.
  split; [vm_compute; reflexivity|].
  split; [vm_compute; by eexists|vm_compute; reflexivity].
Qed.


(** ** Idempotence of the canonical injector *)












Lemma tag_rest_app (url b : text) :
  tag_rest url ++ b =
  lit "rel=" ++ [dq] ++ lit "canonical" ++ [dq] ++ lit " href=" ++ [dq] ++
  url ++ dq :: ">"%char :: b.
Proof. unfold tag_rest. by rewrite <- !app_assoc. Qed.

Lemma canonical_tag_app (url r : text) :
  canonical_tag url ++ r = lit "  <link " ++ tag_rest url ++ nl :: r.
Proof. rewrite tag_rest_app. unfold canonical_tag. by rewrite <- !app_assoc. Qed.


Lemma starts_with_split (p s : text) :
  starts_with p s = true → s = p ++ drop (length p) s.
Proof.
  revert s. induction p as [|a p IH]; intros s H; [done|].
  destruct s as [|b s]; [done|]. simpl in *.
  apply andb_true_iff in H as [Hab H].
  apply Ascii.eqb_eq in Hab as ->. f_equal. by apply IH.
Qed.

Lemma replace_from_skip (old new w rest : text) :
  replace_from (length w) old new (w ++ rest) = replace_from 0 old new rest.
Proof. induction w as [|c w IH]; [done|]. simpl. apply IH. Qed.

Lemma replace_from_match (old new rest : text) :
  old ≠ [] →
  replace_from 0 old new (old ++ rest) = new ++ replace_from 0 old new rest.
Proof.
  intros Hold. destruct old as [|c old]; [done|].
  cbn [app replace_from].
  assert (starts_with (c :: old) (c :: old ++ rest) = true) as ->
    by apply (starts_with_app (c :: old) rest).
  f_equal. simpl. rewrite Nat.sub_0_r. apply replace_from_skip.
Qed.












Lemma canonical_search_app (a s : text) :
  is_Some (canonical_match_at s) → is_Some (canonical_search (a ++ s)).
Proof.
  intros [m Hm]. induction a as [|c a [[pre m'] IH]].
  - destruct s; cbn [app canonical_search]; by rewrite Hm.
  - cbn [app canonical_search]. rewrite IH.
    by destruct (canonical_match_at (c :: a ++ s)).
Qed.

Lemma inserted_tag_matches (url a b : text) :
  url ≠ [] → forallb not_quote url = true →
  is_Some (canonical_search (a ++ canonical_tag url ++ b)).
Proof.
  intros Hne Hurl. rewrite canonical_tag_app, tag_rest_app.
  change (lit "  <link " ++ ?t) with (lit "  " ++ (lit "<link " ++ t)).
  rewrite app_assoc. apply canonical_search_app.
  pose proof (canonical_match_at_complete
                (lit "<link" ++ lit " " ++ lit "rel=" ++ [dq] ++
                 lit "canonical" ++ [dq] ++ lit " " ++ lit "href=" ++ [dq])
                url ([dq] ++ [] ++ lit ">") (nl :: b)) as Hc.
  rewrite <- !app_assoc in Hc. apply Hc.
  - eexists _, _. split; [reflexivity|]. split; [done|].
    eexists _, _. split; [reflexivity|]. split; [done|].
    eexists _, _. split; [reflexivity|]. split; [done|].
    eexists _, _. split; [reflexivity|]. split; [by eexists|].
    eexists _, _. split; [reflexivity|]. split; [done|].
    eexists _, _. split; [reflexivity|]. split; [by eexists|].
    eexists _, _. split; [reflexivity|]. split; [done|].
    eexists _, _. split; [reflexivity|]. split; [done|]. by eexists.
  - done.
  - eexists _, _. split; [reflexivity|]. split; [by eexists|].
    eexists _, _. split; [reflexivity|]. done.
Qed.






(** The other hypotheses of the amended C6 are needed as well.  For a
    URL that ends in [href=] the closing quote of the inserted tag
    completes a second [href=] and quote, the pattern captures the text
    after the tag up to the next quote, and the second application
    overwrites it. *)
Example add_canonical_href_suffix_twice :
  let content := lit "<head></head><body class=" ++ quoted (lit "a") ++ lit ">" in
  let url := lit "https://example.com/?href=" in
  let first := add_canonical_to_html content url in
  let second := add_canonical_to_html (fst first) url in
  fst first =
    lit "<head>  <link rel=" ++ quoted (lit "canonical") ++ lit " href=" ++
    quoted url ++ lit ">" ++ [nl] ++ lit "</head><body class=" ++
    quoted (lit "a") ++ lit ">" ∧
  second =
    (lit "<head>  <link rel=" ++ quoted (lit "canonical") ++ lit " href=" ++
     [dq] ++ url ++ [dq] ++ url ++ [dq] ++ lit "a" ++ [dq] ++ lit ">", true).
Proof. split; vm_compute; reflexivity. Qed.

(** With an empty URL the inserted tag is not matched again and a second
    tag is inserted. *)
Example add_canonical_empty_url_twice :
  let first := add_canonical_to_html (lit "<p>") [] in
  let second := add_canonical_to_html (fst first) [] in
  second = (canonical_tag [] ++ canonical_tag [] ++ lit "<p>", true).
Proof. vm_compute. reflexivity. Qed.

(** On a page that already has a canonical tag the injector need not be
    idempotent even for a plain URL: replacing a value that held [>]
    lets the next application reach a later [href=]. *)
Example add_canonical_existing_tag_twice :
  let content :=
    lit "<link rel=" ++ quoted (lit "canonical") ++ lit " href=" ++
    quoted (lit "a>b") ++ lit " href=" ++ quoted (lit "c") ++ lit ">" in
  let first := add_canonical_to_html content (lit "u") in
  let second := add_canonical_to_html (fst first) (lit "u") in
  first =
    (lit "<link rel=" ++ quoted (lit "canonical") ++ lit " href=" ++
     quoted (lit "u") ++ lit " href=" ++ quoted (lit "c") ++ lit ">", true) ∧
  second =
    (lit "<link rel=" ++ quoted (lit "canonical") ++ lit " href=" ++
     quoted (lit "u") ++ lit " href=" ++ quoted (lit "u") ++ lit ">", true).
Proof. split; vm_compute; reflexivity. Qed.

(** ** The scenario of the specification *)

(** A run in apply mode over the single page [pages/guides/seo.html] with
    the domain [https://example.com] creates [guides/seo/index.html],
    which holds the canonical link to [https://example.com/guides/seo]. *)
Example scenario_guides_seo :
  let w := World {[ demo_page := demo_html ]} [] in
  ∃ w' page,
    run demo_root (cli true false false false (lit "https://example.com")) w
      = Returned tt w' ∧
    files w' !! target_index demo_target = Some page ∧
    contains (lit "<link rel=" ++ quoted (lit "canonical") ++ lit " href=" ++
              quoted (lit "https://example.com/guides/seo") ++ lit ">") page
      = true ∧
    files w' !! demo_page = Some demo_html.
Proof.
  eexists _, _. split; [vm_compute; reflexivity|].
  split; [vm_compute; reflexivity|]. split; vm_compute; reflexivity.
Qed.

(** * Further properties of the generator *)

(** ** Insertion by replacement *)

Lemma contains_nil_r (old : text) : old ≠ [] → contains old [] = false.
Proof. by destruct old. Qed.

(** Replacing [old] by [x ++ old] only adds text. *)
Lemma replace_from_insert (old x s : text) :
  old ≠ [] →
  s `sublist_of` replace_from 0 old (x ++ old) s ∧
  length s ≤ length (replace_from 0 old (x ++ old) s) ∧
  (contains old s = true → x ≠ [] →
   length s < length (replace_from 0 old (x ++ old) s)).
Proof.
  intros Hold.
  induction s as [s IH] using (induction_ltof1 _ (@length ascii)).
  unfold ltof in IH. destruct s as [|c s].
  { rewrite contains_nil_r by done. by repeat split. }
  destruct (starts_with old (c :: s)) eqn:Hs.
  - apply starts_with_split in Hs.
    set (rest := drop (length old) (c :: s)) in *.
    destruct (IH rest) as (Hsub & Hlen & _).
    { rewrite Hs, length_app. destruct old; [done|]. simpl. lia. }
    rewrite Hs, replace_from_match by done. clear Hs IH.
    split; [|split].
    + rewrite <- app_assoc. apply sublist_inserts_l. by apply sublist_app.
    + rewrite !length_app. lia.
    + intros _ Hx. rewrite !length_app. destruct x; [done|]. cbn [length]. lia.
  - destruct (IH s) as (Hsub & Hlen & Hlt); [simpl; lia|].
    cbn [replace_from]. rewrite Hs. split; [|split].
    + by apply sublist_skip.
    + simpl. lia.
    + intros Hc Hx. cbn [contains] in Hc. rewrite Hs in Hc. simpl.
      specialize (Hlt Hc Hx). lia.
Qed.

Lemma canonical_tag_nonempty (url : text) : canonical_tag url ≠ [].
Proof. done. Qed.

Lemma refresh_tag_nonempty (url : text) (seconds : Z) : refresh_tag url seconds ≠ [].
Proof. done. Qed.

Lemma longer_neq (a b : text) : length a < length b → b ≠ a.
Proof. intros H ->. lia. Qed.

(** ** The change flags of the injectors *)

(** X3.  The flag returned by the canonical injector is exact: it is true
    if and only if the returned document differs from the one given. *)
Theorem add_canonical_flag_exact (content url : text) :
  snd (add_canonical_to_html content url) = true ↔
  fst (add_canonical_to_html content url) ≠ content.
Proof.
  unfold add_canonical_to_html.
  destruct (canonical_search content) as [?|]; cbn [fst snd].
  - apply text_eqb_neq.
  - destruct (contains head_close content) eqn:Hhead; cbn [fst snd].
    + split; [intros _|done]. apply longer_neq. rewrite replace_head_close.
      by apply replace_from_insert.
    + split; [intros _|done]. apply longer_neq. rewrite length_app.
      pose proof (canonical_tag_nonempty url).
      destruct (canonical_tag url); [done|]. simpl. lia.
Qed.

(** X6.  The flag returned by the redirect injector is exact as well, and
    a false flag means that the document already holds the exact refresh
    line. *)
Theorem add_meta_refresh_flag_exact (content target_url : text) (seconds : Z) :
  (snd (add_meta_refresh content target_url seconds) = true ↔
   fst (add_meta_refresh content target_url seconds) ≠ content) ∧
  (snd (add_meta_refresh content target_url seconds) = false ↔
   contains (refresh_tag target_url seconds) content = true).
Proof.
  unfold add_meta_refresh.
  destruct (contains (refresh_tag target_url seconds) content) eqn:Hmeta;
    cbn [fst snd]; [done|].
  destruct (contains head_close content) eqn:Hhead; cbn [fst snd].
  - split; [|done]. split; [intros _|done]. apply longer_neq.
    rewrite replace_head_close.
    change (lit "  " ++ ?m ++ head_close) with ((lit "  " ++ m) ++ head_close).
    by apply replace_from_insert.
  - split; [|done]. split; [intros _|done]. apply longer_neq.
    rewrite length_app.
    pose proof (refresh_tag_nonempty target_url seconds).
    destruct (refresh_tag target_url seconds); [done|]. simpl. lia.
Qed.

Lemma refresh_tag_in_output (content target_url : text) (seconds : Z) :
  contains (refresh_tag target_url seconds)
           (fst (add_meta_refresh content target_url seconds)) = true.
Proof.
  unfold add_meta_refresh.
  destruct (contains (refresh_tag target_url seconds) content) eqn:Hmeta;
    cbn [fst]; [done|].
  destruct (contains head_close content) eqn:Hhead; cbn [fst].
  - rewrite replace_head_close.
    destruct (replace_from_infix head_close
                (lit "  " ++ refresh_tag target_url seconds ++ head_close)
                content) as (a & b & ->); [done|done|].
    rewrite <- !app_assoc.
    by rewrite contains_app_r by apply contains_app_r, contains_prefix.
  - apply contains_prefix.
Qed.


(** X7.  The redirect injector only adds text: its output holds the
    refresh line, and the document it was given is a subsequence of the
    output, so no character of the page is lost or altered. *)
Theorem add_meta_refresh_only_adds (content target_url : text) (seconds : Z) :
  contains (refresh_tag target_url seconds)
           (fst (add_meta_refresh content target_url seconds)) = true ∧
  content `sublist_of` fst (add_meta_refresh content target_url seconds).
Proof.
  split; [apply refresh_tag_in_output|].
  unfold add_meta_refresh.
  destruct (contains (refresh_tag target_url seconds) content); cbn [fst];
    [done|].
  destruct (contains head_close content); cbn [fst].
  - rewrite replace_head_close.
    change (lit "  " ++ ?m ++ head_close) with ((lit "  " ++ m) ++ head_close).
    by apply replace_from_insert.
  - by apply sublist_inserts_l.
Qed.

(** ** The canonical injector: what its output holds *)

(** X4.  After the canonical injector has run with a non-empty URL free
    of quote characters, the document holds a tag that [CANONICAL_RE]
    recognises, whatever the document was.  Any later application, with
    any URL, therefore rewrites in place and never inserts a further
    tag. *)
Theorem add_canonical_output_recognised (content url : text) :
  url ≠ [] → forallb not_quote url = true →
  let out := fst (add_canonical_to_html content url) in
  is_Some (canonical_search out) ∧
  ∀ url', fst (add_canonical_to_html out url') = canonical_sub url' out.
Proof.
  intros Hne Hurl out.
  assert (Hrec : is_Some (canonical_search out)).
  { unfold out, add_canonical_to_html.
    destruct (canonical_search content) as [[pre m]|] eqn:Hs; cbn [fst].
    - destruct (canonical_search_spec url _ _ _ Hs) as (_ & Hat & ->).
      apply canonical_match_at_sound in Hat as (_ & H1 & _ & H3).
      apply canonical_search_app.
      by apply canonical_match_at_complete.
    - destruct (contains head_close content) eqn:Hhead; cbn [fst].
      + rewrite replace_head_close.
        destruct (replace_from_infix head_close
                    (canonical_tag url ++ head_close) content)
          as (a & b & ->); [done|done|].
        rewrite <- app_assoc. by apply inserted_tag_matches.
      + by apply (inserted_tag_matches url []). }
  split; [done|]. intros url'. unfold add_canonical_to_html.
  by destruct Hrec as [? ->].
Qed.

Lemma add_canonical_output_recognised_witness :
  is_Some (canonical_search
             (fst (add_canonical_to_html demo_html (lit "https://example.com/guides/seo")))).
Proof.
  apply (add_canonical_output_recognised demo_html
           (lit "https://example.com/guides/seo")); [done|reflexivity].
Defined.

(** X5.  On a document in which [CANONICAL_RE] finds no tag, the
    canonical injector only adds text: the output holds the tag it
    writes, the flag is true, and the document it was given is a
    subsequence of the output. *)
Theorem add_canonical_insertion_only_adds (content url : text) :
  canonical_search content = None →
  let out := fst (add_canonical_to_html content url) in
  snd (add_canonical_to_html content url) = true ∧
  contains (canonical_tag url) out = true ∧
  content `sublist_of` out.
Proof.
  intros Hs out. unfold out, add_canonical_to_html. rewrite Hs.
  destruct (contains head_close content) eqn:Hhead; cbn [fst snd].
  - split; [done|]. rewrite replace_head_close. split.
    + destruct (replace_from_infix head_close
                  (canonical_tag url ++ head_close) content)
        as (a & b & ->); [done|done|].
      rewrite <- app_assoc. apply contains_app_r, contains_prefix.
    + by apply replace_from_insert.
  - split; [done|]. split; [apply contains_prefix|].
    by apply sublist_inserts_l.
Qed.

Lemma add_canonical_insertion_only_adds_witness :
  demo_html `sublist_of`
    fst (add_canonical_to_html demo_html (lit "https://example.com/guides/seo")).
Proof.
  apply (add_canonical_insertion_only_adds demo_html
           (lit "https://example.com/guides/seo")).
  vm_compute. reflexivity.
Defined.

(** ** Backups *)

Lemma rfind_Some (c : ascii) (s : text) (i : nat) :
  rfind c s = Some i → i < length s ∧ ∃ b, drop i s = c :: b.
Proof.
  revert i. induction s as [|x s IH]; intros i; [done|]. cbn [rfind].
  destruct (rfind c s) as [j|].
  - intros [= <-]. destruct (IH j eq_refl) as [Hj Hb]. simpl. split; [lia|done].
  - destruct (Ascii.eqb x c) eqn:Hx; [|done]. intros [= <-].
    apply Ascii.eqb_eq in Hx as ->. simpl. split; [lia|by eexists].
Qed.

(** The suffix of a path is empty, or it starts with a dot and ends the
    name. *)
Lemma suffix_spec (p : path) :
  suffix p = [] ∨
  ∃ b, suffix p = dot :: b ∧
       name p = take (length (name p) - length (suffix p)) (name p) ++ suffix p.
Proof.
  unfold suffix. destruct (rfind dot (name p)) as [i|] eqn:Hi; [|by left].
  destruct (_ && _); [|by left]. right.
  apply rfind_Some in Hi as [Hlt [b Hb]]. exists b. split; [done|].
  rewrite length_drop.
  replace (length (name p) - (length (name p) - i)) with i by lia.
  by rewrite take_drop.
Qed.

Lemma with_suffix_bak (p : path) :
  name p ≠ [] → slash ∉ name p →
  with_suffix p (suffix p ++ lit ".bak") =
  inr (removelast p ++ [name p ++ lit ".bak"]).
Proof.
  intros Hname Hslash. unfold with_suffix.
  assert (Hbak : slash ∉ lit ".bak").
  { intros H. apply list_elem_of_In in H. simpl in H. unfold slash in H.
    intuition discriminate. }
  destruct (suffix_spec p) as [Hnil|(b & Hsuf & Hn)].
  - rewrite Hnil. cbn [app].
    rewrite bool_decide_eq_false_2 by done.
    rewrite (bool_decide_eq_false_2 (lit ".bak" = [])) by done.
    rewrite (bool_decide_eq_false_2 (lit ".bak" = [dot])) by done.
    change (starts_with [dot] (lit ".bak")) with true. cbn [negb andb orb].
    rewrite bool_decide_eq_false_2 by done.
    by rewrite bool_decide_eq_true_2.
  - rewrite bool_decide_eq_false_2.
    2:{ intros [H|H]%elem_of_app; [|done]. apply Hslash. rewrite Hn.
        apply elem_of_app. by right. }
    rewrite (bool_decide_eq_false_2 (suffix p ++ lit ".bak" = [])).
    2:{ intros [_ H]%app_eq_nil. discriminate H. }
    rewrite (bool_decide_eq_false_2 (suffix p ++ lit ".bak" = [dot])).
    2:{ intros H%(f_equal length). rewrite length_app in H. simpl in H. lia. }
    rewrite Hsuf at 1. cbn [app starts_with]. rewrite Ascii.eqb_refl.
    cbn [negb andb orb].
    rewrite bool_decide_eq_false_2 by done.
    rewrite bool_decide_eq_false_2 by (by rewrite Hsuf).
    rewrite app_assoc. by rewrite <- Hn.
Qed.

Lemma name_last (p : path) : name p ≠ [] → p = removelast p ++ [name p].
Proof.
  intros Hname. destruct (decide (p = [])) as [->|Hp]; [done|].
  by apply app_removelast_last.
Qed.

Lemma bak_fresh (p : path) :
  name p ≠ [] → removelast p ++ [name p ++ lit ".bak"] ≠ p.
Proof.
  intros Hname Heq. rewrite (name_last p Hname) in Heq at 3.
  apply app_inv_head in Heq. injection Heq as Heq.
  apply (f_equal length) in Heq. rewrite length_app in Heq. simpl in Heq. lia.
Qed.

Lemma write_backup_copies (p : path) (c : text) (w : world) :
  name p ≠ [] → slash ∉ name p →
  files w !! p = Some c →
  write_backup p w =
  Returned (removelast p ++ [name p ++ lit ".bak"])
    (World (<[removelast p ++ [name p ++ lit ".bak"] := c]> (files w))
           (journal w ++ [Copied p (removelast p ++ [name p ++ lit ".bak"])])).
Proof.
  intros Hname Hslash Hc. unfold write_backup, bind.
  rewrite with_suffix_bak by done. cbn [lift ret]. unfold copy2.
  by rewrite Hc.
Qed.

(** X8.  [write_backup] copies a file to the sibling whose name is the
    file's whole name followed by [.bak] (the old suffix is kept), returns
    that path, and leaves the file itself as it was; the backup is never
    the file itself.  When the file does not exist the call raises
    [FileNotFoundError] and nothing is created. *)
Theorem write_backup_spec (p : path) (w : world) :
  name p ≠ [] → slash ∉ name p →
  let bak := removelast p ++ [name p ++ lit ".bak"] in
  bak ≠ p ∧
  (∀ c, files w !! p = Some c →
        write_backup p w =
        Returned bak (World (<[bak := c]> (files w))
                            (journal w ++ [Copied p bak])) ∧
        <[bak := c]> (files w) !! p = Some c ∧
        <[bak := c]> (files w) !! bak = Some c) ∧
  (files w !! p = None → write_backup p w = Raised FileNotFoundError w).
Proof.
  intros Hname Hslash bak.
  pose proof (bak_fresh p Hname) as Hfresh. split; [done|]. split.
  - intros c Hc. split; [by apply write_backup_copies|].
    split; [by rewrite lookup_insert_ne|by rewrite lookup_insert_eq].
  - intros Hnone. unfold write_backup, bind.
    rewrite with_suffix_bak by done. cbn [lift ret]. unfold copy2.
    by rewrite Hnone.
Qed.

Lemma write_backup_spec_witness :
  write_backup demo_page (World {[ demo_page := demo_html ]} []) =
  Returned (PAGES_DIR demo_root ++ [lit "guides"; lit "seo.html.bak"])
    (World (<[PAGES_DIR demo_root ++ [lit "guides"; lit "seo.html.bak"] := demo_html]>
              {[ demo_page := demo_html ]})
           [Copied demo_page
              (PAGES_DIR demo_root ++ [lit "guides"; lit "seo.html.bak"])]).
Proof.
  destruct (write_backup_spec demo_page (World {[ demo_page := demo_html ]} []))
    as (_ & Hcopy & _).
  - done.
  - vm_compute. intros H. apply list_elem_of_In in H. simpl in H.
    intuition discriminate.
  - destruct (Hcopy demo_html) as [Hrun _]; [apply lookup_singleton_eq|].
    exact Hrun.
Defined.

(** ** The update of a legacy page *)

Lemma redirect_target_defined (ROOT : path) (domain_ : text) (f : path) (t : target) :
  clean_target ROOT domain_ f = inr t → ∃ url, redirect_target ROOT f = inr url.
Proof.
  unfold clean_target, redirect_target.
  destruct (relative_to f (PAGES_DIR ROOT)); [done|].
  destruct (with_suffix _ _); [done|]. by eexists.
Qed.

Lemma legacy_commit
    (f : path) (new_orig orig : text) (modified : list path) (w : world) :
  name f ≠ [] → slash ∉ name f →
  files w !! f = Some orig →
  (write_backup f ;;; write_text f new_orig ;;;
   print (updated_line f) ;;; ret (modified ++ [f])) w =
  Returned (modified ++ [f])
    (World (<[f := new_orig]>
              (<[removelast f ++ [name f ++ lit ".bak"] := orig]> (files w)))
           (journal w ++ [Copied f (removelast f ++ [name f ++ lit ".bak"]);
                          Wrote f new_orig; Printed (updated_line f)])).
Proof.
  intros Hname Hslash Horig.
  erewrite bind_returned by (by apply write_backup_copies).
  cbv beta iota delta [bind write_text print log ret]. cbn [files journal].
  by rewrite <- !app_assoc.
Qed.

Lemma legacy_update_returns
    (ROOT : path) (cfg : config) (f : path) (t : target)
    (modified : list path) (w : world) :
  clean_target ROOT (domain cfg) f = inr t →
  name f ≠ [] → slash ∉ name f →
  is_Some (files w !! f) →
  ∃ modified' w', legacy_update ROOT cfg f t modified w = Returned modified' w'.
Proof.
  intros Ht Hname Hslash [orig Horig].
  destruct (redirect_target_defined _ _ _ _ Ht) as [url Hurl].
  unfold legacy_update.
  destruct (canonical_old cfg || redirect_old cfg); [|by eexists _, _].
  erewrite bind_returned by (unfold read_text; by rewrite Horig).
  destruct (if canonical_old cfg then _ else _) as [new_orig changed_any].
  unfold bind at 1.
  destruct (redirect_old cfg && text_eqb (redirect_type cfg) (lit "meta")).
  - unfold bind at 1. rewrite Hurl. cbn [lift]. cbv beta iota delta [ret].
    destruct (add_meta_refresh new_orig url 0) as [n c].
    destruct (changed_any || c); [|by eexists _, _].
    erewrite legacy_commit by done. by eexists _, _.
  - cbv beta iota delta [ret]. destruct changed_any; [|by eexists _, _].
    erewrite legacy_commit by done. by eexists _, _.
Qed.

(** X13.  The update of a legacy page is all or nothing, and it never
    overwrites the page without saving it first: either the file tree and
    the journal are left exactly as they were (the call returns the list
    it was given, or raises), or the page's previous content is copied to
    the sibling [.bak] file, the page is rewritten, one line is printed
    and the page is appended to the list, in that order. *)
Theorem legacy_update_backs_up_first
    (ROOT : path) (cfg : config) (f : path) (t : target)
    (modified : list path) (w : world) (orig : text) :
  name f ≠ [] → slash ∉ name f →
  files w !! f = Some orig →
  let bak := removelast f ++ [name f ++ lit ".bak"] in
  legacy_update ROOT cfg f t modified w = Returned modified w ∨
  (∃ e, legacy_update ROOT cfg f t modified w = Raised e w) ∨
  (∃ new_orig,
     legacy_update ROOT cfg f t modified w =
     Returned (modified ++ [f])
       (World (<[f := new_orig]> (<[bak := orig]> (files w)))
              (journal w ++ [Copied f bak; Wrote f new_orig;
                             Printed (updated_line f)]))).
Proof.
  intros Hname Hslash Horig bak.
  pose proof (fun new_orig =>
                legacy_commit f new_orig orig modified w Hname Hslash Horig)
    as Hcommit.
  remember (legacy_update ROOT cfg f t modified w) as o eqn:Ho.
  unfold legacy_update in Ho.
  destruct (canonical_old cfg || redirect_old cfg); [|by left].
  erewrite bind_returned in Ho by (unfold read_text; by rewrite Horig).
  destruct (if canonical_old cfg then _ else _) as [new_orig changed_any].
  unfold bind at 1 in Ho.
  destruct (redirect_old cfg && text_eqb (redirect_type cfg) (lit "meta")).
  - unfold bind at 1 in Ho. destruct (redirect_target ROOT f) as [e|url].
    { right. left. by exists e. }
    cbn [lift] in Ho. cbv beta iota delta [ret] in Ho.
    destruct (add_meta_refresh new_orig url 0) as [n c].
    destruct (changed_any || c); [|by left].
    right. right. exists n. rewrite Ho. apply Hcommit.
  - cbv beta iota delta [ret] in Ho. destruct changed_any; [|by left].
    right. right. exists new_orig. rewrite Ho. apply Hcommit.
Qed.

Lemma legacy_update_backs_up_first_witness :
  let cfg := cli true true true false (lit "https://example.com") in
  let w := World {[ demo_page := demo_html ]} [] in
  let bak := PAGES_DIR demo_root ++ [lit "guides"; lit "seo.html.bak"] in
  legacy_update demo_root cfg demo_page demo_target [] w = Returned [] w ∨
  (∃ e, legacy_update demo_root cfg demo_page demo_target [] w = Raised e w) ∨
  (∃ new_orig,
     legacy_update demo_root cfg demo_page demo_target [] w =
     Returned [demo_page]
       (World (<[demo_page := new_orig]> (<[bak := demo_html]> (files w)))
              [Copied demo_page bak; Wrote demo_page new_orig;
               Printed (updated_line demo_page)])).
Proof.
  intros cfg w bak.
  apply (legacy_update_backs_up_first demo_root cfg demo_page demo_target
           [] w demo_html).
  - done.
  - intros H. apply list_elem_of_In in H. vm_compute in H.
    intuition discriminate.
  - apply lookup_singleton_eq.
Defined.



(** ** Finding the pages *)

Lemma not_html_pages : ends_with HTML_EXT (lit "pages") = false.
Proof. reflexivity. Qed.

Lemma elem_of_find_page_files (root : path) (w : world) (f : path) :
  f ∈ find_page_files root w ↔
  is_Some (files w !! f) ∧
  PAGES_DIR root `prefix_of` f ∧
  ends_with HTML_EXT (name f) = true ∧
  Forall (fun p => p ∉ EXCLUDE_DIRS) f.
Proof.
  unfold find_page_files. fold (PAGES_DIR root).
  rewrite !list_elem_of_filter, list_elem_of_In, in_map_iff. split.
  - intros (Hex & (Hpre & _ & Hext) & [[f' c] [<- Hin]]).
    apply list_elem_of_In, elem_of_map_to_list in Hin.
    split; [by exists c|]. split; [done|]. split; [done|].
    by apply not_Exists_Forall in Hex; [|apply _].
  - intros ([c Hc] & Hpre & Hext & Hall).
    split; [by apply Forall_not_Exists|]. split.
    + split; [done|]. split; [|done]. intros ->.
      rewrite PAGES_DIR_eq, name_snoc in Hext. by rewrite not_html_pages in Hext.
    + exists (f, c). split; [done|].
      by apply list_elem_of_In, elem_of_map_to_list.
Qed.

(** X2.  The exclusion test of [find_page_files] looks at every
    component of the absolute path, those of the site root included: when
    the site root itself lies below a directory named [assets] or [.git],
    no page is found, whatever the file tree holds. *)
Theorem find_page_files_excluded_root (root : path) (w : world) (d : text) :
  d ∈ root → d ∈ EXCLUDE_DIRS → find_page_files root w = [].
Proof.
  intros Hd Hex. destruct (find_page_files root w) as [|f l] eqn:Hfs; [done|].
  assert (Hf : f ∈ find_page_files root w) by (rewrite Hfs; left).
  apply elem_of_find_page_files in Hf as (_ & [rel ->] & _ & Hall).
  rewrite Forall_forall in Hall. destruct (Hall d); [|done].
  rewrite PAGES_DIR_eq, !elem_of_app. by left; left.
Qed.

Lemma find_page_files_excluded_root_witness :
  find_page_files [lit "home"; lit "assets"; lit "site"]
    (World {[ [lit "home"; lit "assets"; lit "site"; lit "pages"; lit "a.html"]
              := demo_html ]} []) = [].
Proof.
  apply (find_page_files_excluded_root _ _ (lit "assets")).
  - right. left.
  - left.
Defined.

(** ** Runs of the generator *)

Lemma exists_false (p : path) (w : world) :
  files w !! p = None → exists_ p w = Returned false w.
Proof.
  intros H. unfold exists_. rewrite bool_decide_eq_false_2; [done|].
  rewrite H. by intros [? ?].
Qed.

Lemma legacy_update_off
    (ROOT : path) (cfg : config) (f : path) (t : target)
    (modified : list path) (w : world) :
  canonical_old cfg = false → redirect_old cfg = false →
  legacy_update ROOT cfg f t modified w = Returned modified w.
Proof. intros Hc Hr. unfold legacy_update. by rewrite Hc, Hr. Qed.

Lemma create_or_skip_absent
    (cfg : config) (f : path) (t : target) (created : list path)
    (w : world) (content : text) :
  files w !! target_index t = None →
  files w !! f = Some content →
  create_or_skip cfg f t created w =
  Returned (created ++ [target_index t])
    (World (<[target_index t :=
                fst (add_canonical_to_html content (clean_url t))]> (files w))
           (journal w ++
            [MadeDir (target_dir t);
             Wrote (target_index t)
                   (fst (add_canonical_to_html content (clean_url t)));
             Printed (created_line t)])).
Proof.
  intros Habsent Hcontent. unfold create_or_skip.
  erewrite bind_returned by (by apply exists_false). cbn [andb].
  erewrite bind_returned by reflexivity.
  erewrite bind_returned
    by (unfold read_text; cbn [files]; rewrite Hcontent; reflexivity).
  destruct (add_canonical_to_html content (clean_url t)) as [new_content changed].
  erewrite bind_returned by (by apply exists_false). cbn [andb fst].
  cbv beta iota delta [bind ret write_text print log]. cbn [files journal].
  by rewrite <- !app_assoc.
Qed.

(** X11.  A dry run prints one line per page found, in the order the
    pages were found, each naming the page, its clean target and its
    canonical URL, and then the summary line, which always reports zero
    pages created and zero legacy files modified. *)
Theorem dry_run_journal (ROOT : path) (cfg : config) (w : world) :
  dry_run cfg = true →
  ∃ ts,
    Forall2 (fun f t => clean_target ROOT (domain cfg) f = inr t)
            (find_page_files ROOT w) ts ∧
    run ROOT cfg w =
    Returned tt
      (World (files w)
             (journal w ++
              zip_with (fun f t => Printed (dry_line f t))
                       (find_page_files ROOT w) ts ++
              [Printed (done_line [] [])])).
Proof.
  intros Hdry. unfold run.
  assert (Hts : ∃ ts, Forall2 (fun f t => clean_target ROOT (domain cfg) f = inr t)
                              (find_page_files ROOT w) ts).
  { assert (Hall : ∀ f, f ∈ find_page_files ROOT w →
                        ∃ t, clean_target ROOT (domain cfg) f = inr t)
      by (intros f Hf; by eapply found_page_has_target).
    induction (find_page_files ROOT w) as [|f fs IH]; [by exists []|].
    destruct (Hall f) as [t Ht]; [by left|].
    destruct IH as [ts Hts]; [intros f' Hf'; apply Hall; by right|].
    exists (t :: ts). by constructor. }
  destruct Hts as [ts Hts]. exists ts. split; [done|].
  assert (Hloop : ∀ acc w0,
    run_loop ROOT cfg (find_page_files ROOT w) acc w0 =
    Returned acc
      (World (files w0)
             (journal w0 ++ zip_with (fun f t => Printed (dry_line f t))
                                     (find_page_files ROOT w) ts))).
  { intros acc. induction Hts as [|f t fs ts Ht Hts IH]; intros w0.
    - cbn [run_loop zip_with]. rewrite app_nil_r. by destruct w0.
    - cbn [run_loop zip_with]. erewrite bind_returned.
      2:{ unfold process_file. rewrite Ht, Hdry. cbn [lift].
          erewrite bind_returned by reflexivity.
          erewrite bind_returned by reflexivity. reflexivity. }
      rewrite IH. cbn [files journal]. by rewrite <- app_assoc. }
  erewrite bind_returned by apply Hloop.
  unfold print, log. cbn [files journal fst snd]. by rewrite <- app_assoc.
Qed.

Lemma dry_run_journal_witness :
  ∃ ts,
    run demo_root (cli false true true true (lit "https://example.com"))
      demo_world =
    Returned tt
      (World (files demo_world)
             (journal demo_world ++
              zip_with (fun f t => Printed (dry_line f t))
                       (find_page_files demo_root demo_world) ts ++
              [Printed (done_line [] [])])).
Proof.
  destruct (dry_run_journal demo_root
              (cli false true true true (lit "https://example.com"))
              demo_world) as (ts & _ & Hrun); [reflexivity|].
  by exists ts.
Defined.





(** X10.  The canonical URL and the legacy redirect of a page agree: for
    every page with a clean target the redirect target is defined, and
    the canonical URL is the domain without its trailing slashes followed
    by the redirect target.  The one exception is the root index, whose
    redirect target is [/index] while its canonical URL ends in the bare
    slash. *)
Theorem canonical_url_follows_redirect
    (ROOT : path) (domain_ : text) (f : path) (t : target) :
  clean_target ROOT domain_ f = inr t →
  ∃ url, redirect_target ROOT f = inr url ∧
         (clean_url t = rstrip slash domain_ ++ url ∨
          url = lit "/index" ∧ target_dir t = ROOT ∧
          clean_url t = rstrip slash domain_ ++ lit "/").
Proof.
  unfold clean_target, redirect_target.
  destruct (relative_to f (PAGES_DIR ROOT)); [done|].
  destruct (with_suffix _ _) as [|stripped]; [done|].
  case_bool_decide as Hidx; intros [= <-]; eexists; (split; [reflexivity|]).
  - right. rewrite Hidx. done.
  - left. reflexivity.
Qed.

Lemma canonical_url_follows_redirect_witness :
  ∃ url, redirect_target demo_root demo_page = inr url ∧
         clean_url demo_target = lit "https://example.com" ++ url.
Proof.
  destruct (canonical_url_follows_redirect demo_root (lit "https://example.com/")
              demo_page demo_target) as (url & Hurl & Hcase).
  - vm_compute. reflexivity.
  - exists url. split; [exact Hurl|].
    destruct Hcase as [H|[H _]]; [exact H|].
    rewrite H in Hurl. vm_compute in Hurl. discriminate Hurl.
Defined.

(** ** What a run never does *)

Lemma insert_keeps_is_Some (fs : gmap path text) (k p : path) (v : text) :
  is_Some (fs !! p) → is_Some (<[k := v]> fs !! p).
Proof. intros H. apply lookup_insert_is_Some'. by right. Qed.

Lemma write_backup_keeps_files (f : path) (w : world) (p : path) :
  is_Some (files w !! p) →
  is_Some (files (world_of (write_backup f w)) !! p).
Proof.
  intros Hp. unfold write_backup, bind, lift.
  destruct (with_suffix f (suffix f ++ lit ".bak")) as [e|bak]; [done|].
  unfold ret, copy2. destruct (files w !! f); [|done]. cbn [world_of files].
  by apply insert_keeps_is_Some.
Qed.

Lemma create_or_skip_keeps_files
    (cfg : config) (f : path) (t : target) (created : list path)
    (w : world) (p : path) :
  is_Some (files w !! p) →
  is_Some (files (world_of (create_or_skip cfg f t created w)) !! p).
Proof.
  intros Hp. unfold create_or_skip.
  rewrite world_of_bind. unfold exists_ at 1.
  destruct (_ && negb (force cfg)); [done|].
  rewrite world_of_bind. cbn [ensure_dir log].
  rewrite world_of_bind. unfold read_text. cbn [files].
  destruct (files w !! f) as [content|]; [|done].
  destruct (add_canonical_to_html content (clean_url t)) as [new_content ?].
  rewrite world_of_bind. unfold exists_. cbn [files].
  destruct (_ && force cfg).
  - rewrite world_of_bind. unfold bind at 1.
    pose proof (write_backup_keeps_files (target_index t)
                  (World (files w) (journal w ++ [MadeDir (target_dir t)])) p Hp)
      as Hbak.
    destruct (write_backup (target_index t) _) as [bak w1|e w1];
      cbn [world_of] in *; [|done].
    cbv beta iota delta [bind ret write_text print log]. cbn [world_of files].
    by apply insert_keeps_is_Some.
  - cbv beta iota delta [bind ret write_text print log]. cbn [world_of files].
    by apply insert_keeps_is_Some.
Qed.

Lemma legacy_update_keeps_files
    (ROOT : path) (cfg : config) (f : path) (t : target)
    (modified : list path) (w : world) (p : path) :
  is_Some (files w !! p) →
  is_Some (files (world_of (legacy_update ROOT cfg f t modified w)) !! p).
Proof.
  intros Hp.
  assert (Hcommit : ∀ new_orig,
    is_Some (files (world_of ((write_backup f ;;; write_text f new_orig ;;;
                               print (updated_line f) ;;;
                               ret (modified ++ [f])) w)) !! p)).
  { intros new_orig. unfold bind at 1.
    pose proof (write_backup_keeps_files f w p Hp) as Hbak.
    destruct (write_backup f w) as [bak w1|e w1]; cbn [world_of] in *; [|done].
    cbv beta iota delta [bind ret write_text print log]. cbn [world_of files].
    by apply insert_keeps_is_Some. }
  unfold legacy_update.
  destruct (canonical_old cfg || redirect_old cfg); [|done].
  unfold bind at 1. unfold read_text at 1.
  destruct (files w !! f) as [orig|] eqn:Horig; [|done].
  destruct (if canonical_old cfg then _ else _) as [new_orig changed_any].
  unfold bind at 1.
  destruct (redirect_old cfg && text_eqb (redirect_type cfg) (lit "meta")).
  - unfold bind at 1. destruct (redirect_target ROOT f) as [e|url]; [done|].
    cbn [lift]. cbv beta iota delta [ret].
    destruct (add_meta_refresh new_orig url 0) as [n c].
    destruct (changed_any || c); [|done]. apply Hcommit.
  - cbv beta iota delta [ret]. destruct changed_any; [|done]. apply Hcommit.
Qed.

Lemma process_file_keeps_files
    (ROOT : path) (cfg : config) (f : path) (acc : list path * list path)
    (w : world) (p : path) :
  is_Some (files w !! p) →
  is_Some (files (world_of (process_file ROOT cfg f acc w)) !! p).
Proof.
  intros Hp. unfold process_file. rewrite world_of_bind.
  destruct (clean_target ROOT (domain cfg) f) as [e|t]; [done|].
  cbn [lift ret]. destruct (dry_run cfg); [done|].
  rewrite world_of_bind.
  pose proof (create_or_skip_keeps_files cfg f t (fst acc) w p Hp) as Hcreate.
  destruct (create_or_skip cfg f t (fst acc) w) as [created w1|e w1];
    cbn [world_of] in Hcreate; [|done].
  rewrite world_of_bind_ret. by apply legacy_update_keeps_files.
Qed.

(** X17.  A run never removes a file: whatever the flags are, and
    whether the run ends normally or with an exception, every path that
    held a file before the run still holds one afterwards. *)
Theorem run_never_removes_a_file
    (ROOT : path) (cfg : config) (w : world) (p : path) :
  is_Some (files w !! p) →
  is_Some (files (world_of (run ROOT cfg w)) !! p).
Proof.
  intros Hp.
  assert (Hloop : ∀ fs acc w0, is_Some (files w0 !! p) →
    is_Some (files (world_of (run_loop ROOT cfg fs acc w0)) !! p)).
  { induction fs as [|f fs IH]; intros acc w0 Hp0; [done|].
    cbn [run_loop]. rewrite world_of_bind.
    pose proof (process_file_keeps_files ROOT cfg f acc w0 p Hp0) as Hstep.
    destruct (process_file ROOT cfg f acc w0) as [acc' w'|e w'];
      cbn [world_of] in Hstep; [|done].
    by apply IH. }
  unfold run. rewrite world_of_bind.
  specialize (Hloop (find_page_files ROOT w) ([], []) w Hp).
  by destruct (run_loop ROOT cfg (find_page_files ROOT w) ([], []) w).
Qed.

Lemma run_never_removes_a_file_witness :
  is_Some (files (world_of (run demo_root
                              (cli true true true true (lit "https://example.com"))
                              demo_world)) !! demo_page).
Proof.
  apply (run_never_removes_a_file demo_root
           (cli true true true true (lit "https://example.com"))
           demo_world demo_page).
  vm_compute. by eexists.
Defined.

Lemma create_or_skip_returns
    (ROOT : path) (cfg : config) (f : path) (t : target)
    (created : list path) (w : world) :
  clean_target ROOT (domain cfg) f = inr t →
  is_Some (files w !! f) →
  ∃ created' w', create_or_skip cfg f t created w = Returned created' w'.
Proof.
  intros Ht [content Hcontent].
  pose proof (clean_target_index _ _ _ _ Ht) as Hidx.
  destruct (files w !! target_index t) as [old|] eqn:Hold.
  - destruct (force cfg) eqn:Hforce.
    + unfold create_or_skip.
      erewrite bind_returned by (apply exists_true; eauto).
      rewrite Hforce. cbn [negb andb].
      erewrite bind_returned by reflexivity.
      erewrite bind_returned
        by (unfold read_text; cbn [files]; rewrite Hcontent; reflexivity).
      destruct (add_canonical_to_html content (clean_url t))
        as [new_content changed].
      erewrite bind_returned by (apply exists_true; cbn [files]; eauto).
      cbn [andb].
      erewrite bind_returned.
      2:{ erewrite bind_returned; [reflexivity|].
          rewrite Hidx.
          apply (write_backup_html (target_dir t) (lit "index") old); [done|].
          cbn [files].
          change (lit "index" ++ HTML_EXT) with (lit "index.html").
          by rewrite <- Hidx. }
      cbv beta iota delta [bind write_text print log ret]. by eexists _, _.
    + rewrite create_or_skip_existing by eauto. by eexists _, _.
  - erewrite create_or_skip_absent by done. by eexists _, _.
Qed.

Lemma html_name_nonempty (n : text) : ends_with HTML_EXT n = true → n ≠ [].
Proof. by intros H ->. Qed.

Lemma run_loop_returns
    (ROOT : path) (cfg : config) (w : world) (fs : list path)
    (acc : list path * list path) (w0 : world) :
  (∀ f, f ∈ fs → f ∈ find_page_files ROOT w ∧ (slash ∉ name f) ∧
                 is_Some (files w0 !! f)) →
  ∃ acc' w', run_loop ROOT cfg fs acc w0 = Returned acc' w'.
Proof.
  revert acc w0. induction fs as [|f fs IH]; intros acc w0 Hfs;
    [by eexists _, _|].
  cbn [run_loop]. destruct (Hfs f) as (Hf & Hslash & Hex); [by left|].
  assert (Hproc : ∃ acc' w', process_file ROOT cfg f acc w0 = Returned acc' w').
  { destruct (found_page_has_target ROOT (domain cfg) w f Hf) as [t Ht].
    apply elem_of_find_page_files in Hf as (_ & _ & Hext & _).
    apply html_name_nonempty in Hext.
    unfold process_file. rewrite Ht. cbn [lift].
    erewrite bind_returned by reflexivity.
    destruct (dry_run cfg); [by eexists _, _|].
    destruct (create_or_skip_returns ROOT cfg f t (fst acc) w0 Ht Hex)
      as (created & w1 & Hcreate).
    pose proof (create_or_skip_keeps_files cfg f t (fst acc) w0 f Hex) as Hex1.
    rewrite Hcreate in Hex1. cbn [world_of] in Hex1.
    erewrite bind_returned by apply Hcreate.
    destruct (legacy_update_returns ROOT cfg f t (snd acc) w1 Ht Hext Hslash Hex1)
      as (modified & w2 & Hlegacy).
    erewrite bind_returned by apply Hlegacy. by eexists _, _. }
  destruct Hproc as (acc' & w1 & Hproc).
  erewrite bind_returned by apply Hproc.
  apply IH. intros f' Hf'.
  destruct (Hfs f') as (Hfound & Hslash' & Hex'); [by right|].
  split; [done|]. split; [done|].
  pose proof (process_file_keeps_files ROOT cfg f acc w0 f' Hex') as Hkeep.
  by rewrite Hproc in Hkeep.
Qed.

(** ** Running the generator again *)

(** One page of a run in apply mode without [--force] and without the
    legacy flags. *)
Lemma process_file_plain
    (ROOT : path) (cfg : config) (f : path) (acc : list path * list path)
    (w : world) (t : target) :
  dry_run cfg = false → force cfg = false →
  canonical_old cfg = false → redirect_old cfg = false →
  clean_target ROOT (domain cfg) f = inr t →
  process_file ROOT cfg f acc w =
  match files w !! target_index t with
  | Some _ =>
      Returned acc (World (files w) (journal w ++ [Printed (skip_line t)]))
  | None =>
      match files w !! f with
      | Some content =>
          Returned (fst acc ++ [target_index t], snd acc)
            (World (<[target_index t :=
                        fst (add_canonical_to_html content (clean_url t))]>
                      (files w))
                   (journal w ++
                    [MadeDir (target_dir t);
                     Wrote (target_index t)
                           (fst (add_canonical_to_html content (clean_url t)));
                     Printed (created_line t)]))
      | None =>
          Raised FileNotFoundError
            (World (files w) (journal w ++ [MadeDir (target_dir t)]))
      end
  end.
Proof.
  intros Hdry Hforce Hc Hr Ht. unfold process_file. rewrite Ht, Hdry.
  cbn [lift]. erewrite bind_returned by reflexivity.
  destruct (files w !! target_index t) as [old|] eqn:Hold.
  - erewrite bind_returned by (apply create_or_skip_existing; eauto).
    erewrite bind_returned by (by apply legacy_update_off).
    by destruct acc.
  - destruct (files w !! f) as [content|] eqn:Hcontent.
    + erewrite bind_returned by (by apply create_or_skip_absent).
      by erewrite bind_returned by (by apply legacy_update_off).
    + unfold bind at 1. unfold create_or_skip.
      erewrite bind_returned by (by apply exists_false). cbn [andb].
      erewrite bind_returned by reflexivity.
      unfold bind, read_text. cbn [files]. by rewrite Hcontent.
Qed.

Lemma plain_loop_effect
    (ROOT : path) (cfg : config) (fs : list path)
    (acc acc' : list path * list path) (w w' : world) :
  dry_run cfg = false → force cfg = false →
  canonical_old cfg = false → redirect_old cfg = false →
  (∀ f, f ∈ fs → ∃ t, clean_target ROOT (domain cfg) f = inr t) →
  run_loop ROOT cfg fs acc w = Returned acc' w' →
  (∀ f t, f ∈ fs → clean_target ROOT (domain cfg) f = inr t →
          is_Some (files w' !! target_index t)) ∧
  (∀ p, (∀ f t, f ∈ fs → clean_target ROOT (domain cfg) f = inr t →
                p ≠ target_index t) →
        files w' !! p = files w !! p) ∧
  (∀ p, is_Some (files w !! p) → is_Some (files w' !! p)).
Proof.
  intros Hdry Hforce Hc Hr. revert acc w.
  induction fs as [|f fs IH]; intros acc w Hts Hrun.
  { cbn [run_loop] in Hrun. injection Hrun as _ <-.
    split; [by intros f t Hf%elem_of_nil|]. by split. }
  cbn [run_loop] in Hrun. destruct (Hts f) as [t Ht]; [by left|].
  unfold bind in Hrun.
  rewrite (process_file_plain ROOT cfg f acc w t) in Hrun by done.
  assert (Hrest : ∀ f', f' ∈ fs → ∃ t', clean_target ROOT (domain cfg) f' = inr t')
    by (intros f' Hf'; apply Hts; by right).
  destruct (files w !! target_index t) as [old|] eqn:Hold.
  - destruct (IH _ _ Hrest Hrun) as (Hex & Hframe & Hmono). cbn [files] in *.
    split; [|split; [|done]].
    + intros f' t' [->|Hf']%elem_of_cons Ht'; [|by eapply Hex].
      rewrite Ht in Ht'. injection Ht' as <-. apply Hmono. by rewrite Hold.
    + intros p Hp. apply Hframe. intros f' t' Hf'. apply Hp. by right.
  - destruct (files w !! f) as [content|] eqn:Hcontent; [|done].
    destruct (IH _ _ Hrest Hrun) as (Hex & Hframe & Hmono). cbn [files] in *.
    split; [|split].
    + intros f' t' [->|Hf']%elem_of_cons Ht'; [|by eapply Hex].
      rewrite Ht in Ht'. injection Ht' as <-. apply Hmono.
      by rewrite lookup_insert_eq.
    + intros p Hp. rewrite Hframe by (intros f' t' Hf'; apply Hp; by right).
      apply lookup_insert_ne. intros Heq. by apply (Hp f t); [left| |].
    + intros p Hp. by apply Hmono, insert_keeps_is_Some.
Qed.

Lemma skip_loop
    (ROOT : path) (cfg : config) (fs : list path)
    (acc : list path * list path) (w : world) :
  dry_run cfg = false → force cfg = false →
  canonical_old cfg = false → redirect_old cfg = false →
  (∀ f, f ∈ fs → ∃ t, clean_target ROOT (domain cfg) f = inr t ∧
                      is_Some (files w !! target_index t)) →
  ∃ lines, run_loop ROOT cfg fs acc w =
           Returned acc (World (files w) (journal w ++ map Printed lines)).
Proof.
  intros Hdry Hforce Hc Hr. revert w.
  induction fs as [|f fs IH]; intros w Hfs.
  - exists []. cbn [run_loop map]. rewrite app_nil_r. by destruct w.
  - destruct (Hfs f) as (t & Ht & [old Hold]); [by left|].
    destruct (IH (World (files w) (journal w ++ [Printed (skip_line t)])))
      as [lines Hlines]; [intros f' Hf'; apply Hfs; by right|].
    exists (skip_line t :: lines). cbn [run_loop]. unfold bind.
    rewrite (process_file_plain ROOT cfg f acc w t) by done. rewrite Hold.
    rewrite Hlines. cbn [files journal map]. by rewrite <- app_assoc.
Qed.

(** X19.  Running the generator again is harmless.  After a run in apply
    mode without [--force] and without the legacy flags has returned, on
    a site none of whose clean targets lies below [pages/], a second run
    with the same flags finds every target in place: it returns normally,
    prints its lines, reports zero pages created and zero legacy files
    modified, and leaves the file tree exactly as the first run left
    it. *)
Theorem second_plain_run_changes_nothing
    (ROOT : path) (cfg : config) (w w1 : world) :
  dry_run cfg = false → force cfg = false →
  canonical_old cfg = false → redirect_old cfg = false →
  (∀ f t, f ∈ find_page_files ROOT w →
          clean_target ROOT (domain cfg) f = inr t →
          ¬ PAGES_DIR ROOT `prefix_of` target_index t) →
  run ROOT cfg w = Returned tt w1 →
  ∃ lines,
    run ROOT cfg w1 =
    Returned tt (World (files w1)
                       (journal w1 ++ map Printed lines ++
                        [Printed (done_line [] [])])).
Proof.
  intros Hdry Hforce Hc Hr Hout Hrun. unfold run in Hrun.
  unfold bind in Hrun.
  destruct (run_loop ROOT cfg (find_page_files ROOT w) ([], []) w)
    as [acc w'|e w'] eqn:Hloop; [|done].
  unfold print, log in Hrun. injection Hrun as <-.
  destruct (plain_loop_effect ROOT cfg _ _ _ _ _ Hdry Hforce Hc Hr
              (fun f Hf => found_page_has_target ROOT (domain cfg) w f Hf) Hloop)
    as (Hex & Hframe & _).
  destruct (skip_loop ROOT cfg
              (find_page_files ROOT
                 (World (files w')
                        (journal w' ++ [Printed (done_line (fst acc) (snd acc))])))
              ([], [])
              (World (files w')
                     (journal w' ++ [Printed (done_line (fst acc) (snd acc))]))
              Hdry Hforce Hc Hr) as [lines Hlines].
  { intros f Hf.
    assert (Hfound : f ∈ find_page_files ROOT w).
    { apply elem_of_find_page_files in Hf as (Hsome & Hpre & Hext & Hall).
      apply elem_of_find_page_files. cbn [files] in Hsome.
      split; [|done]. rewrite <- Hframe; [done|].
      intros f' t' Hf' Ht' ->. by apply (Hout f' t'). }
    destruct (found_page_has_target ROOT (domain cfg) w f Hfound) as [t Ht].
    exists t. split; [done|]. cbn [files]. by eapply Hex. }
  exists lines. unfold run. erewrite bind_returned by apply Hlines.
  unfold print, log. cbn [files journal fst snd]. by rewrite <- app_assoc.
Qed.

Lemma second_plain_run_changes_nothing_witness :
  let cfg := cli true false false false (lit "https://example.com") in
  let w := World {[ demo_page := demo_html ]} [] in
  ∃ w1 lines,
    run demo_root cfg w = Returned tt w1 ∧
    run demo_root cfg w1 =
    Returned tt (World (files w1)
                       (journal w1 ++ map Printed lines ++
                        [Printed (done_line [] [])])).
Proof.
  intros cfg w.
  assert (Hfs : find_page_files demo_root w = [demo_page])
    by (vm_compute; reflexivity).
  assert (Hslash : slash ∉ name demo_page).
  { intros H. apply list_elem_of_In in H. vm_compute in H.
    intuition discriminate. }
  destruct (run_loop_returns demo_root cfg w (find_page_files demo_root w)
              ([], []) w) as (acc & w0 & Hloop).
  { intros f Hf. split; [done|]. rewrite Hfs in Hf.
    apply list_elem_of_singleton in Hf as ->. split; [done|].
    exists demo_html. apply lookup_singleton_eq. }
  assert (Hrun : run demo_root cfg w =
                 Returned tt (World (files w0)
                                    (journal w0 ++
                                     [Printed (done_line (fst acc) (snd acc))]))).
  { unfold run. by erewrite bind_returned by apply Hloop. }
  destruct (second_plain_run_changes_nothing demo_root cfg w
              (World (files w0)
                     (journal w0 ++ [Printed (done_line (fst acc) (snd acc))]))
              eq_refl eq_refl eq_refl eq_refl) as [lines Hlines];
    [|exact Hrun|eexists _, lines; split; [exact Hrun|exact Hlines]].
  intros f t Hf Ht. rewrite Hfs in Hf.
  apply list_elem_of_singleton in Hf as ->.
  assert (Hdemo : clean_target demo_root (domain cfg) demo_page = inr demo_target)
    by (vm_compute; reflexivity).
  rewrite Hdemo in Ht. injection Ht as <-.
  intros [k Hk]. vm_compute in Hk. discriminate Hk.
Defined.


(** ** The summary line *)








(** * The run as a whole *)

(** ** The paths a run writes to *)








(** ** Paths below the pages root *)






(** ** Overwriting with [--force] *)






Lemma no_slash_in (n : text) :
  forallb (fun c => negb (Ascii.eqb c slash)) n = true → slash ∉ n.
Proof.
  induction n as [|c n IH]; [intros _; apply not_elem_of_nil|].
  cbn [forallb]. intros [Hc Hn]%andb_true_iff.
  intros [Heq|?]%elem_of_cons; [|by apply IH].
  rewrite <- Heq in Hc. by rewrite Ascii.eqb_refl in Hc.
Qed.



(** On a site where two pages have the same clean target, run with
    [--apply --force] alone, the second overwrite replaces the backup made
    by the first: the content the target had before the run is lost. *)
Example shared_target_backup_lost :
  let cfg := cli true false false true (lit "https://example.com") in
  let target := demo_root ++ [lit "a"; lit "index.html"] in
  let bak := demo_root ++ [lit "a"; lit "index.html.bak"] in
  files shared_world !! target = Some (lit "old copy") ∧
  files (world_of (run demo_root cfg shared_world)) !! bak =
    Some (canonical_tag (lit "https://example.com/a") ++ lit "<p>1</p>") ∧
  files (world_of (run demo_root cfg shared_world)) !! target =
    Some (canonical_tag (lit "https://example.com/a/.") ++ lit "<p>2</p>").
Proof. repeat split; vm_compute; reflexivity. Qed.

(** On the site with a [pages] directory inside [pages/], run with
    [--apply --force] alone, the page [pages/y/index.html] is first
    overwritten as the target of [pages/pages/y.html]; its own clean copy
    is then generated from what it holds at that moment, not from what
    it held before the run.  The backup of its target is kept. *)
Example source_overwritten_before_copy :
  let cfg := cli true false false true (lit "https://example.com") in
  let target := demo_root ++ [lit "y"; lit "index"; lit "index.html"] in
  let bak := demo_root ++ [lit "y"; lit "index"; lit "index.html.bak"] in
  let w := World (<[target := lit "old copy"]> (files nested_world)) [] in
  files w !! nested_target = Some (lit "<p>B</p>") ∧
  files (world_of (run demo_root cfg w)) !! bak = Some (lit "old copy") ∧
  files (world_of (run demo_root cfg w)) !! target =
    Some (canonical_tag (lit "https://example.com/y/index") ++ lit "<p>A</p>").
Proof. repeat split; vm_compute; reflexivity. Qed.

(** ** Skipping an existing target, through the whole run *)







(** ** The target of the legacy redirect *)




(** ** The shape of the canonical URL *)

Lemma replace_char_absent (c d : ascii) (s : text) :
  c ∉ s → replace [c] [d] s = s.
Proof.
  unfold replace. induction s as [|x s IH]; [done|]. intros Hc.
  cbn [replace_from starts_with length Nat.sub].
  destruct (Ascii.eqb_spec c x) as [->|Hne]; cbn [andb].
  - exfalso. apply Hc. left.
  - f_equal. apply IH. intros H. apply Hc. by right.
Qed.

Lemma join_free (c : ascii) (parts : list text) :
  c ≠ slash → Forall (fun x => c ∉ x) parts → c ∉ join [slash] parts.
Proof.
  intros Hc. induction 1 as [|x parts Hx Hparts IH]; [apply not_elem_of_nil|].
  cbn [join]. destruct parts as [|y parts]; [done|].
  rewrite !elem_of_app. intros [?|[Hs|?]]; [done| |by apply IH].
  apply list_elem_of_singleton in Hs. by apply Hc.
Qed.

(** No double slash starts inside a text that holds no slash. *)
Lemma double_slash_app (x r : text) :
  slash ∉ x →
  contains (lit "//") (x ++ r) = contains (lit "//") r.
Proof.
  induction x as [|c x IH]; [done|]. intros Hx.
  cbn [app contains]. rewrite IH by (intros H; apply Hx; by right).
  replace (starts_with (lit "//") (c :: x ++ r)) with false; [done|].
  symmetry. cbn [lit list_ascii_of_string starts_with].
  destruct (Ascii.eqb_spec "/"%char c) as [<-|]; [|done].
  exfalso. apply Hx. left.
Qed.

Lemma join_single_slashes (parts : list text) :
  Forall (fun x => x ≠ [] ∧ slash ∉ x) parts →
  starts_with [slash] (join [slash] parts) = false ∧
  contains (lit "//") (join [slash] parts) = false.
Proof.
  induction 1 as [|x parts [Hne Hx] Hparts [IHs IHc]]; [done|].
  assert (Hstart : ∀ r, starts_with [slash] (x ++ r) = false).
  { intros r. destruct x as [|c x]; [done|]. cbn [app starts_with].
    destruct (Ascii.eqb_spec slash c) as [<-|]; [|done].
    exfalso. apply Hx. left. }
  cbn [join]. destruct parts as [|y parts].
  - split; [by rewrite <- (app_nil_r x)|].
    by rewrite <- (app_nil_r x), double_slash_app.
  - split; [done|]. rewrite double_slash_app by done.
    cbn [app contains]. rewrite IHc.
    change (starts_with (lit "//") (slash :: join [slash] (y :: parts)))
      with (starts_with [slash] (join [slash] (y :: parts))).
    by rewrite IHs.
Qed.

(** X9.  For a page whose directory names and stem are non-empty and
    hold neither a slash nor a backslash, the canonical URL is the domain
    without its trailing slashes, one slash, and the names joined by
    single slashes (nothing, for the root index): the bare domain does not
    end in a slash, and the path neither starts with a slash nor holds a
    double slash. *)
Theorem clean_url_shape
    (ROOT : path) (domain_ : text) (dir : path) (stem : text) (t : target) :
  Forall (fun x => x ≠ [] ∧ (slash ∉ x) ∧ backslash ∉ x) (dir ++ [stem]) →
  clean_target ROOT domain_ (PAGES_DIR ROOT ++ dir ++ [stem ++ HTML_EXT]) =
    inr t →
  let url_path :=
    if bool_decide (dir = [] ∧ stem = lit "index") then []
    else join [slash] (dir ++ [stem]) in
  clean_url t = rstrip slash domain_ ++ slash :: url_path ∧
  (∃ k, domain_ = rstrip slash domain_ ++ repeat slash k) ∧
  (rstrip slash domain_ = [] ∨
   ∃ l y, rstrip slash domain_ = l ++ [y] ∧ y ≠ slash) ∧
  starts_with [slash] url_path = false ∧
  contains (lit "//") url_path = false.
Proof.
  intros Hnames Ht url_path.
  destruct (rstrip_spec slash domain_) as (k & Hk & Hbare).
  assert (Hstem : stem ≠ []).
  { apply Forall_app in Hnames as [_ Hs].
    by apply Forall_singleton in Hs as [? _]. }
  assert (Hjoin : starts_with [slash] (join [slash] (dir ++ [stem])) = false ∧
                  contains (lit "//") (join [slash] (dir ++ [stem])) = false).
  { apply join_single_slashes.
    eapply Forall_impl; [exact Hnames|]. by intros x (? & ? & ?). }
  assert (Hstr : str_rel (dir ++ [stem]) = join [slash] (dir ++ [stem])).
  { unfold str_rel. by destruct (dir ++ [stem]) eqn:E; [destruct dir|]. }
  assert (Hurl : clean_url t = rstrip slash domain_ ++ slash :: url_path).
  { revert Ht. unfold clean_target.
    rewrite relative_to_app, with_suffix_html by done.
    unfold url_path. case_bool_decide as Hidx; intros [= <-]; cbn [clean_url].
    - rewrite bool_decide_eq_true_2; [done|]. by apply str_rel_index.
    - rewrite bool_decide_eq_false_2.
      2:{ intros [-> ->]. by apply Hidx. }
      do 2 f_equal.
      change (replace_from 0 [backslash] [slash] ?s)
        with (replace [backslash] [slash] s).
      rewrite Hstr. apply replace_char_absent, join_free; [done|].
      eapply Forall_impl; [exact Hnames|]. by intros x (? & ? & ?). }
  split; [done|]. split; [by exists k|]. split; [done|].
  unfold url_path. by case_bool_decide.
Qed.

Lemma clean_url_shape_witness :
  clean_url demo_target =
  rstrip slash (lit "https://example.com//") ++ slash :: lit "guides/seo" ∧
  contains (lit "//") (lit "guides/seo") = false.
Proof.
  destruct (clean_url_shape demo_root (lit "https://example.com//")
              [lit "guides"] (lit "seo") demo_target)
    as (Hurl & _ & _ & _ & Hpath).
  - repeat constructor; try done;
      apply no_slash_in || (intros H; apply list_elem_of_In in H;
                            vm_compute in H; intuition discriminate);
      reflexivity.
  - vm_compute. reflexivity.
  - split; [exact Hurl|exact Hpath].
Defined.

(** A backslash in a file name becomes a slash in the URL and can double
    the one that joins the domain and the path. *)
Example clean_url_backslash_name :
  ∃ t, clean_target demo_root (lit "https://example.com")
         (PAGES_DIR demo_root ++ [[backslash] ++ lit "foo.html"]) = inr t ∧
       clean_url t = lit "https://example.com//foo".
Proof. eexists. split; vm_compute; reflexivity. Qed.
